(** * Chunked transcription pipeline: retry policy and rolling prompt

    A shallow embedding of [lib/openai/transcribe.ts] (with the constant
    [ROLLING_PROMPT_LENGTH] of [lib/openai/client.ts] and the types of
    [types/index.ts]), followed by the properties of its three exported
    functions [transcribeAudioFile], [transcribeChunks] and
    [transcribeAudio].

    The asynchronous functions of the source await every call before the
    next statement runs, so they are embedded as sequential computations in
    a small state-and-exception monad.  The state is the log of everything
    the code did to the outside world: the requests sent to the speech
    service with the outcome of each, the back-off sleeps, and the progress
    notifications.  The speech service is a parameter of the development:
    an arbitrary function from the log so far and the request to an
    outcome, which covers every deterministic service and, read over all
    such functions, every behaviour a run can meet.

    [console.log] calls write diagnostics only and are left out.  Strings
    are [string]; [String.length] stands for the [length] of a JavaScript
    string (a count of code units), and no property below depends on the
    size of a code unit.  JavaScript numbers that the code only ever uses
    as integers (attempt counters, indices, milliseconds, HTTP statuses)
    are [Z]: [1000 * 2 ^ n] is a 7-bit integer times a power of two, so the
    double-precision product of [getRetryDelay] is exact until it
    overflows to infinity, where [Math.min] returns [maxDelayMs] just as
    [Z.min] does. *)

From Stdlib Require Import ZArith List String Ascii Bool Lia.
Import ListNotations.

Local Open Scope string_scope.
Local Open Scope list_scope.
Local Open Scope Z_scope.

(** ** Strings and arrays of JavaScript *)

(** The line feed character, written ['\n'] in the source. *)
Definition LF : string := String (ascii_of_nat 10) EmptyString.

(** The separator ['\n\n'] of the final [join]. *)
Definition blank_line : string := (LF ++ LF)%string.

(** [s.slice(beginIndex)]: a negative index counts from the end and is
    clamped at the start of the string; a positive one is clamped at the
    end. *)
Definition slice (s : string) (beginIndex : Z) : string :=
  let len := Z.of_nat (String.length s) in
  let from :=
    if beginIndex <? 0 then Z.max (len + beginIndex) 0
    else Z.min beginIndex len in
  substring (Z.to_nat from) (Z.to_nat (len - from)) s.

(** [xs.join(sep)]: the elements with [sep] between consecutive ones;
    the empty array gives the empty string. *)
Fixpoint join (sep : string) (xs : list string) : string :=
  match xs with
  | [] => ""
  | [x] => x
  | x :: rest => (x ++ sep ++ join sep rest)%string
  end.

(** [s || undefined] on a string: the empty string is falsy. *)
Definition or_undefined (s : string) : option string :=
  match s with
  | EmptyString => None
  | _ => Some s
  end.

(** ** Types of [types/index.ts] *)

Inductive WhisperModel := whisper_1 | gpt_4o_transcribe.

Inductive ResponseFormat := text_format | verbose_json | srt | vtt.

(** The pipeline reads only [path]; [index] and [duration] (a number of
    seconds, kept as an integer here) are carried along unread. *)
Record AudioChunk := mkAudioChunk {
  path : string;
  index : Z;
  duration : Z
}.

(** ** Constants *)

(** [ROLLING_PROMPT_LENGTH] of [lib/openai/client.ts]. *)
Definition ROLLING_PROMPT_LENGTH : Z := 1500.

Record RetryConfig := mkRetryConfig {
  maxRetries : Z;
  initialDelayMs : Z;
  maxDelayMs : Z
}.

Definition RETRY_CONFIG : RetryConfig :=
  {| maxRetries := 3; initialDelayMs := 1000; maxDelayMs := 10000 |}.

(** ** The speech service as the code sees it *)

(** A value caught by [catch (error: any)].  The code reads only
    [error?.status] and [error?.code]; the optional chaining matters for a
    thrown [null] or [undefined], which has neither. *)
Inductive JsError :=
| ThrownNullish
| ErrorObject (status : option Z) (code : option string) (message : string).

(** [error?.status] *)
Definition status_of (error : JsError) : option Z :=
  match error with
  | ThrownNullish => None
  | ErrorObject status _ _ => status
  end.

(** [error?.code] *)
Definition code_of (error : JsError) : option string :=
  match error with
  | ThrownNullish => None
  | ErrorObject _ code _ => code
  end.

(** [new Error(message)] *)
Definition new_Error (message : string) : JsError :=
  ErrorObject None None message.

(** What [openai.audio.transcriptions.create] resolves to: a string when
    the response format is text, an object with a [text] field
    otherwise. *)
Inductive Transcription :=
| TranscriptionString (s : string)
| TranscriptionObject (text : string).

(** [typeof transcription === 'string' ? transcription : transcription.text] *)
Definition text_of (transcription : Transcription) : string :=
  match transcription with
  | TranscriptionString s => s
  | TranscriptionObject text => text
  end.

(** The argument of [openai.audio.transcriptions.create]; [file] is the
    path handed to [fs.createReadStream]. *)
Record Request := mkRequest {
  req_model : WhisperModel;
  req_file : string;
  req_response_format : ResponseFormat;
  req_language : option string;
  req_prompt : option string;
  req_temperature : Z
}.

(** ** The log of effects *)

Inductive Event :=
| EvCreate (request : Request) (outcome : JsError + Transcription)
| EvSleep (ms : Z)
| EvProgress (current total : Z).

Definition Log := list Event.

(** The requests of a log, oldest first. *)
Fixpoint requests (log : Log) : list Request :=
  match log with
  | [] => []
  | EvCreate q _ :: rest => q :: requests rest
  | _ :: rest => requests rest
  end.

(** The texts of the successful responses of a log, oldest first. *)
Fixpoint outputs (log : Log) : list string :=
  match log with
  | [] => []
  | EvCreate _ (inr t) :: rest => text_of t :: outputs rest
  | _ :: rest => outputs rest
  end.

(** The back-off delays of a log, oldest first. *)
Fixpoint sleeps (log : Log) : list Z :=
  match log with
  | [] => []
  | EvSleep ms :: rest => ms :: sleeps rest
  | _ :: rest => sleeps rest
  end.

(** ** The monad: a log threaded through, and exceptions *)

Definition M (A : Type) : Type := Log -> (JsError + A) * Log.

Definition ret {A} (a : A) : M A := fun log => (inr a, log).

Definition throw {A} (error : JsError) : M A := fun log => (inl error, log).

Definition bind {A B} (m : M A) (k : A -> M B) : M B :=
  fun log =>
    match m log with
    | (inr a, log') => k a log'
    | (inl error, log') => (inl error, log')
    end.

Notation "x <- m ;; k" := (bind m (fun x => k))
  (at level 61, m at next level, right associativity).
Notation "m ;;; k" := (bind m (fun _ => k))
  (at level 61, right associativity).

(** [await sleep(ms)] *)
Definition sleep (ms : Z) : M unit :=
  fun log => (inr tt, log ++ [EvSleep ms]).

(** ** Options objects

    The three functions destructure their [options] argument; a missing
    property is [None] and takes the default written in the
    destructuring pattern. *)

(** The observer [onProgress], when one is supplied: its call with
    [(current, total)] returns or throws, which may depend on what
    happened before.  [transcribeChunks] calls it outside any [try], so
    what it throws is thrown by [transcribeChunks].  Each call appears in
    the log. *)
Definition Observer : Type := Log -> Z -> Z -> JsError + unit.

Record FileOptions := mkFileOptions {
  fo_model : option WhisperModel;
  fo_language : option string;
  fo_prompt : option string;
  fo_responseFormat : option ResponseFormat
}.

Record ChunkOptions := mkChunkOptions {
  co_model : option WhisperModel;
  co_language : option string;
  co_initialPrompt : option string;
  co_responseFormat : option ResponseFormat;
  co_onProgress : option Observer
}.

Record AudioOptions := mkAudioOptions {
  ao_model : option WhisperModel;
  ao_language : option string;
  ao_prompt : option string;
  ao_responseFormat : option ResponseFormat;
  ao_onProgress : option Observer
}.

Record ChunksResult := mkChunksResult {
  transcript : string;
  chunksProcessed : Z
}.

Definition default {A} (d : A) (o : option A) : A :=
  match o with
  | Some a => a
  | None => d
  end.

(** ** [getRetryDelay] *)

Definition getRetryDelay (attempt : Z) : Z :=
  let delay := initialDelayMs RETRY_CONFIG * 2 ^ attempt in
  Z.min delay (maxDelayMs RETRY_CONFIG).

(** ** [transcribeAudioFile] *)

(** [error?.status === 429] *)
Definition is_rate_limit (error : JsError) : bool :=
  match status_of error with
  | Some s => s =? 429
  | None => false
  end.

(** The [isRetriable] constant of the catch block. *)
Definition isRetriable (error : JsError) : bool :=
  match status_of error with
  | Some s => s >=? 500
  | None => false
  end
  || match code_of error with
     | Some c => String.eqb c "ECONNRESET"
     | None => false
     end
  || match code_of error with
     | Some c => String.eqb c "ETIMEDOUT"
     | None => false
     end.

(** [lastError || new Error('Transcription failed after retries')] *)
Definition lastError_or_new (lastError : option JsError) : JsError :=
  match lastError with
  | Some (ErrorObject status code message) => ErrorObject status code message
  | _ => new_Error "Transcription failed after retries"
  end.

Section Service.

(** The speech service: the outcome of a request, given everything that
    happened before it. *)
Variable openai_create : Log -> Request -> JsError + Transcription.

(** The [try] block around [openai.audio.transcriptions.create]: the
    outcome, caught, with the exchange logged. *)
Definition try_create (request : Request) : M (JsError + Transcription) :=
  fun log =>
    let outcome := openai_create log request in
    (inr outcome, log ++ [EvCreate request outcome]).

(** The [for] loop of [transcribeAudioFile] from iteration [attempt] on.
    [remaining] is [maxRetries - attempt], the number of iterations the
    loop guard [attempt < maxRetries] still admits; at zero the loop is
    left and the statement after it runs. *)
Fixpoint retry_loop (request : Request) (remaining : nat) (attempt : Z)
    (lastError : option JsError) : M string :=
  match remaining with
  | O => throw (lastError_or_new lastError)
  | S remaining' =>
      outcome <- try_create request ;;
      match outcome with
      | inr transcription => ret (text_of transcription)
      | inl error =>
          if is_rate_limit error && (attempt <? maxRetries RETRY_CONFIG - 1)
          then
            sleep (getRetryDelay attempt) ;;;
            retry_loop request remaining' (attempt + 1) (Some error)
          else if isRetriable error && (attempt <? maxRetries RETRY_CONFIG - 1)
          then
            sleep (getRetryDelay attempt) ;;;
            retry_loop request remaining' (attempt + 1) (Some error)
          else throw error
      end
  end.

(** The request built from the arguments of [transcribeAudioFile]. *)
Definition request_of (audioPath : string) (options : FileOptions) : Request :=
  {| req_model := default whisper_1 (fo_model options);
     req_file := audioPath;
     req_response_format := default text_format (fo_responseFormat options);
     req_language := fo_language options;
     req_prompt := fo_prompt options;
     req_temperature := 0 |}.

Definition transcribeAudioFile (audioPath : string) (options : FileOptions)
    : M string :=
  retry_loop (request_of audioPath options)
    (Z.to_nat (maxRetries RETRY_CONFIG)) 0 None.

(** ** [transcribeChunks] *)

(** The options of the call for one chunk. *)
Definition chunk_call_options (options : ChunkOptions) (rollingPrompt : string)
    : FileOptions :=
  {| fo_model := Some (default whisper_1 (co_model options));
     fo_language := co_language options;
     fo_prompt := or_undefined rollingPrompt;
     fo_responseFormat := Some (default text_format (co_responseFormat options)) |}.

(** The new value of [rollingPrompt] after a chunk produced [transcript]. *)
Definition next_rollingPrompt (transcript : string) : string :=
  if Z.of_nat (String.length transcript) >? ROLLING_PROMPT_LENGTH
  then slice transcript (- ROLLING_PROMPT_LENGTH)
  else transcript.

(** [if (onProgress) onProgress(current, total)] *)
Definition report_progress (onProgress : option Observer)
    (current total : Z) : M unit :=
  match onProgress with
  | Some observer =>
      fun log => (observer log current total, log ++ [EvProgress current total])
  | None => ret tt
  end.

(** The [for] loop of [transcribeChunks] from index [i] on: [rest] holds
    [chunks[i]], [chunks[i+1]], ... and [total] is [chunks.length]. *)
Fixpoint chunk_loop (options : ChunkOptions) (total : Z)
    (rest : list AudioChunk) (i : Z) (transcripts : list string)
    (rollingPrompt : string) : M (list string) :=
  match rest with
  | [] => ret transcripts
  | chunk :: rest' =>
      transcript <- transcribeAudioFile (path chunk)
                      (chunk_call_options options rollingPrompt) ;;
      let transcripts := transcripts ++ [transcript] in
      let rollingPrompt := next_rollingPrompt transcript in
      report_progress (co_onProgress options) (i + 1) total ;;;
      chunk_loop options total rest' (i + 1) transcripts rollingPrompt
  end.

Definition transcribeChunks (chunks : list AudioChunk) (options : ChunkOptions)
    : M ChunksResult :=
  let initialPrompt := default "" (co_initialPrompt options) in
  transcripts <- chunk_loop options (Z.of_nat (List.length chunks)) chunks 0 []
                   initialPrompt ;;
  let combinedTranscript := join blank_line transcripts in
  ret {| transcript := combinedTranscript;
         chunksProcessed := Z.of_nat (List.length chunks) |}.

(** ** [transcribeAudio] *)

(** [transcribeAudio] hands its own [options] object on.
    [transcribeAudioFile] reads [model], [language], [prompt] and
    [responseFormat] from it. *)
Definition as_file_options (options : AudioOptions) : FileOptions :=
  {| fo_model := ao_model options;
     fo_language := ao_language options;
     fo_prompt := ao_prompt options;
     fo_responseFormat := ao_responseFormat options |}.

(** [transcribeChunks] reads [model], [language], [initialPrompt],
    [responseFormat] and [onProgress]; the object it is given has a
    [prompt] property and no [initialPrompt]. *)
Definition as_chunk_options (options : AudioOptions) : ChunkOptions :=
  {| co_model := ao_model options;
     co_language := ao_language options;
     co_initialPrompt := None;
     co_responseFormat := ao_responseFormat options;
     co_onProgress := ao_onProgress options |}.

Definition transcribeAudio (audioPath : string)
    (chunks : option (list AudioChunk)) (options : AudioOptions)
    : M ChunksResult :=
  let single :=
    transcript <- transcribeAudioFile audioPath (as_file_options options) ;;
    ret {| transcript := transcript; chunksProcessed := 1 |} in
  match chunks with
  | None => single
  | Some cs =>
      if Z.of_nat (List.length cs) =? 0 then single
      else transcribeChunks cs (as_chunk_options options)
  end.

End Service.

(** ** [countWords] and [countCharacters]

    The statistics the API route computes on the transcript. *)

(** The characters the regular expression [\s] matches and [trim]
    strips (white space and line terminators), among the code units a
    [string] can hold: tab, line feed, vertical tab, form feed, carriage
    return, space and no-break space.  The remaining ones lie above
    U+00FF (U+1680, U+2000 to U+200A, U+2028, U+2029, U+202F, U+205F,
    U+3000, U+FEFF). *)
Definition is_whitespace (c : ascii) : bool :=
  let n := nat_of_ascii c in
  ((9 <=? n) && (n <=? 13) || (n =? 32) || (n =? 160))%nat.

Fixpoint trimStart (s : string) : string :=
  match s with
  | EmptyString => EmptyString
  | String c rest => if is_whitespace c then trimStart rest else s
  end.

Fixpoint trimEnd (s : string) : string :=
  match s with
  | EmptyString => EmptyString
  | String c rest =>
      match trimEnd rest with
      | EmptyString =>
          if is_whitespace c then EmptyString else String c EmptyString
      | rest' => String c rest'
      end
  end.

(** [s.trim()] *)
Definition trim (s : string) : string := trimEnd (trimStart s).

(** [s.split(/\s+/)], scanning [s] from the left.  [piece] is the part
    of the current piece read so far; [in_run] tells that the scan is
    inside a run of white space, which the greedy [\s+] consumes whole.
    The end of the string closes the current piece, so that the empty
    string gives one empty piece. *)
Fixpoint split_whitespace_from (s piece : string) (in_run : bool)
    : list string :=
  match s with
  | EmptyString => [piece]
  | String c rest =>
      if is_whitespace c
      then if in_run then split_whitespace_from rest "" true
           else piece :: split_whitespace_from rest "" true
      else split_whitespace_from rest (piece ++ String c "")%string false
  end.

Definition split_whitespace (s : string) : list string :=
  split_whitespace_from s "" false.

(** [text.trim().split(/\s+/).filter(word => word.length > 0).length] *)
Definition countWords (text : string) : Z :=
  Z.of_nat
    (List.length
       (filter (fun word => Z.of_nat (String.length word) >? 0)
          (split_whitespace (trim text)))).

(** [s.replace(/\s/g, '')] *)
Fixpoint remove_whitespace (s : string) : string :=
  match s with
  | EmptyString => EmptyString
  | String c rest =>
      if is_whitespace c then remove_whitespace rest
      else String c (remove_whitespace rest)
  end.

(** [text.replace(/\s/g, '').length] *)
Definition countCharacters (text : string) : Z :=
  Z.of_nat (String.length (remove_whitespace text)).

(** ** [getAppConfig] of [lib/openai/client.ts]

    The configuration is read from the environment on first use and kept
    in the module variable [_config].  [parsed] is what [getConfig()]
    gives at the time of the call: the configuration, or the error
    thrown by the environment schema. *)

Section Client.

Variable Config : Type.

Definition getAppConfig (parsed : JsError + Config) (_config : option Config)
    : (JsError + Config) * option Config :=
  match _config with
  | Some config => (inr config, _config)
  | None =>
      match parsed with
      | inr config => (inr config, Some config)
      | inl _ =>
          (inl (new_Error
                  "Missing or invalid environment variables. Please check your .env file."),
           None)
      end
  end.

(** Successive calls of [getAppConfig], the environment giving
    [parsed] at each: the results, and the final value of [_config]. *)
Fixpoint getAppConfig_calls (environment : list (JsError + Config))
    (_config : option Config) : list (JsError + Config) * option Config :=
  match environment with
  | [] => ([], _config)
  | parsed :: later =>
      let (result, _config') := getAppConfig parsed _config in
      let (results, final) := getAppConfig_calls later _config' in
      (result :: results, final)
  end.

End Client.

(** ** [processVideo] of [lib/audio/processor.ts] and the route
    [POST /api/transcribe]

    The route and [processVideo] call collaborators that run ffmpeg,
    touch the file system, parse the form and validate it with the
    request schema.  They are taken from an [Environment]: each is
    called at most once in a request, so a function of its arguments
    covers every behaviour it can show. *)

(** [MAX_UPLOAD_BYTES] of [lib/openai/client.ts]. *)
Definition MAX_UPLOAD_BYTES : Z := 25 * 1024 * 1024.

Record AudioExtractionResult := mkAudioExtractionResult {
  aer_audioPath : string;
  aer_duration : Z;
  aer_size : Z
}.

Record ChunkingResult := mkChunkingResult {
  cr_chunks : list AudioChunk;
  cr_totalDuration : Z
}.

(** The result of [processVideo]. *)
Record ProcessedVideo := mkProcessedVideo {
  pv_audioPath : string;
  pv_chunks : option (list AudioChunk);
  pv_duration : Z
}.

(** A [File] of the form data. *)
Record UploadedFile := mkUploadedFile {
  file_name : string;
  file_type : string;
  file_size : Z
}.

(** What [formData.get(name)] returns when it is not [null]. *)
Inductive FormValue :=
| FormString (s : string)
| FormFile (file : UploadedFile).

(** The object handed to [transcriptionRequestSchema.safeParse].
    [raw_chunkSeconds] holds the entry [Number] is applied to. *)
Record RawOptions := mkRawOptions {
  raw_model : option FormValue;
  raw_language : option FormValue;
  raw_prompt : option FormValue;
  raw_chunkSeconds : option FormValue;
  raw_responseFormat : option FormValue
}.

(** [validationResult.data]; [chunkSeconds] is handed on unread. *)
Record RequestData := mkRequestData {
  rd_model : WhisperModel;
  rd_language : option string;
  rd_prompt : option string;
  rd_chunkSeconds : Z;
  rd_responseFormat : ResponseFormat
}.

Record TranscriptionMetadata := mkTranscriptionMetadata {
  md_videoFilename : string;
  md_duration : Z;
  md_wordCount : Z;
  md_charCount : Z;
  md_chunksProcessed : Z;
  md_processingTime : Z;
  md_model : WhisperModel;
  md_language : option string
}.

(** [TranscriptionResponse] and [TranscriptionError]. *)
Inductive ResponseBody :=
| ResponseSuccess (transcript : string) (metadata : TranscriptionMetadata)
| ResponseError (error : string) (details : option string).

(** [NextResponse.json(body, { status })] *)
Record Response := mkResponse {
  resp_body : ResponseBody;
  resp_status : Z
}.

Record Environment := mkEnvironment {
  env_startTime : Z;
  env_endTime : Z;
  env_checkFfmpegAvailable : bool;
  env_formData : JsError + (string -> option FormValue);
  env_safeParse : RawOptions -> list string + RequestData;
  env_createTempDir : JsError + string;
  env_saveUploadedFile : UploadedFile -> string -> JsError + string;
  env_extractAudio : string -> string -> JsError + AudioExtractionResult;
  env_mkdir : string -> JsError + unit;
  env_chunkAudio : string -> string -> option Z -> JsError + ChunkingResult;
  env_path_join : string -> string -> string;
  env_create : Log -> Request -> JsError + Transcription
}.

(** The calls to collaborators, in the order they are made. *)
Inductive Step :=
| StepCheckFfmpeg
| StepFormData
| StepCreateTempDir (outcome : JsError + string)
| StepSaveUploadedFile (file : UploadedFile) (tempDir : string)
| StepExtractAudio (videoPath outputPath : string)
| StepMkdir (dir : string)
| StepChunkAudio (audioPath outputDir : string) (chunkSeconds : option Z)
| StepTranscribeAudio (audioPath : string)
| StepCleanupTempDir (tempDir : string).

(** The state of one request: the log of the speech service, the calls
    made so far and the variable [tempDir] of the handler. *)
Record RouteState := mkRouteState {
  rs_log : Log;
  rs_steps : list Step;
  rs_tempDir : option string
}.

Definition R (A : Type) : Type := RouteState -> (JsError + A) * RouteState.

Definition rret {A} (a : A) : R A := fun st => (inr a, st).

Definition rthrow {A} (error : JsError) : R A := fun st => (inl error, st).

Definition rbind {A B} (m : R A) (k : A -> R B) : R B :=
  fun st =>
    match m st with
    | (inr a, st') => k a st'
    | (inl error, st') => (inl error, st')
    end.

Notation "x <-- m ;; k" := (rbind m (fun x => k))
  (at level 61, m at next level, right associativity).

(** A call to a collaborator: the call is recorded, its outcome returned
    or thrown. *)
Definition external {A} (step : Step) (outcome : JsError + A) : R A :=
  fun st =>
    (outcome,
     {| rs_log := rs_log st;
        rs_steps := rs_steps st ++ [step];
        rs_tempDir := rs_tempDir st |}).

(** A computation of the transcription module, run on the log of the
    request. *)
Definition lift {A} (m : M A) : R A :=
  fun st =>
    let (result, log') := m (rs_log st) in
    (result,
     {| rs_log := log';
        rs_steps := rs_steps st;
        rs_tempDir := rs_tempDir st |}).

(** [tempDir = ...] *)
Definition assign_tempDir (dir : string) : R unit :=
  fun st =>
    (inr tt,
     {| rs_log := rs_log st;
        rs_steps := rs_steps st;
        rs_tempDir := Some dir |}).

Definition processVideo (env : Environment) (videoPath tempDir : string)
    (chunkSeconds : option Z) : R ProcessedVideo :=
  let audioPath := env_path_join env tempDir "extracted_audio.mp3" in
  extractionResult <--
    external (StepExtractAudio videoPath audioPath)
      (env_extractAudio env videoPath audioPath) ;;
  if aer_size extractionResult <=? MAX_UPLOAD_BYTES
  then
    rret {| pv_audioPath := audioPath;
            pv_chunks := None;
            pv_duration := aer_duration extractionResult |}
  else
    let chunkDir := env_path_join env tempDir "chunks" in
    _ <-- external (StepMkdir chunkDir) (env_mkdir env chunkDir) ;;
    chunkingResult <--
      external (StepChunkAudio audioPath chunkDir chunkSeconds)
        (env_chunkAudio env audioPath chunkDir chunkSeconds) ;;
    rret {| pv_audioPath := audioPath;
            pv_chunks := Some (cr_chunks chunkingResult);
            pv_duration := cr_totalDuration chunkingResult |}.

(** [formData.get(name) || undefined]: [null] and the empty string are
    falsy. *)
Definition entry_or_undefined (entry : option FormValue) : option FormValue :=
  match entry with
  | Some (FormString EmptyString) => None
  | _ => entry
  end.

(** [s.startsWith(prefix)] *)
Definition startsWith (s prefix : string) : bool := String.prefix prefix s.

(** The message of the [TypeError] raised by [video.type.startsWith]
    when the [video] entry is a string, whose [type] is [undefined]; the
    wording is that of Node. *)
Definition undefined_startsWith_message : string :=
  "Cannot read properties of undefined (reading 'startsWith')".

(** [error?.message || fallback] *)
Definition message_or (error : JsError) (fallback : string) : string :=
  match error with
  | ErrorObject _ _ (String c rest) => String c rest
  | _ => fallback
  end.

(** [error?.status === code] *)
Definition status_is (error : JsError) (code : Z) : bool :=
  match status_of error with
  | Some s => s =? code
  | None => false
  end.

(** The [catch] block of the route. *)
Definition error_response (error : JsError) : Response :=
  if status_is error 401 then
    {| resp_body :=
         ResponseError "OpenAI API authentication failed"
           (Some "Invalid API key. Please check your OPENAI_API_KEY environment variable.");
       resp_status := 500 |}
  else if status_is error 429 then
    {| resp_body :=
         ResponseError "Rate limit exceeded"
           (Some "OpenAI API rate limit reached. Please try again later.");
       resp_status := 429 |}
  else
    {| resp_body :=
         ResponseError "Transcription failed"
           (Some (message_or error "An unexpected error occurred"));
       resp_status := 500 |}.

(** The part of the [try] block that follows the validation of the
    request. *)
Definition transcribe_video (env : Environment) (video : UploadedFile)
    (options : RequestData) : R Response :=
  tempDir <--
    external (StepCreateTempDir (env_createTempDir env))
      (env_createTempDir env) ;;
  _ <-- assign_tempDir tempDir ;;
  videoPath <--
    external (StepSaveUploadedFile video tempDir)
      (env_saveUploadedFile env video tempDir) ;;
  processed <--
    processVideo env videoPath tempDir (Some (rd_chunkSeconds options)) ;;
  _ <-- external (StepTranscribeAudio (pv_audioPath processed)) (inr tt) ;;
  result <--
    lift (transcribeAudio (env_create env) (pv_audioPath processed)
            (pv_chunks processed)
            {| ao_model := Some (rd_model options);
               ao_language := rd_language options;
               ao_prompt := rd_prompt options;
               ao_responseFormat := Some (rd_responseFormat options);
               ao_onProgress := None |}) ;;
  let wordCount := countWords (transcript result) in
  let charCount := countCharacters (transcript result) in
  let processingTime := env_endTime env - env_startTime env in
  rret {| resp_body :=
            ResponseSuccess (transcript result)
              {| md_videoFilename := file_name video;
                 md_duration := pv_duration processed;
                 md_wordCount := wordCount;
                 md_charCount := charCount;
                 md_chunksProcessed := chunksProcessed result;
                 md_processingTime := processingTime;
                 md_model := rd_model options;
                 md_language := rd_language options |};
          resp_status := 200 |}.

(** The [try] block of the route. *)
Definition try_block (env : Environment) : R Response :=
  ffmpegAvailable <--
    external StepCheckFfmpeg (inr (env_checkFfmpegAvailable env)) ;;
  if negb ffmpegAvailable then
    rret {| resp_body :=
              ResponseError "FFmpeg not available"
                (Some "FFmpeg must be installed on the server. Please install it using: brew install ffmpeg (macOS) or apt-get install ffmpeg (Linux)");
            resp_status := 500 |}
  else
    formData <-- external StepFormData (env_formData env) ;;
    match entry_or_undefined (formData "video") with
    | None =>
        rret {| resp_body :=
                  ResponseError "No video file provided"
                    (Some "Please upload a video file");
                resp_status := 400 |}
    | Some (FormString _) =>
        rthrow (ErrorObject None None undefined_startsWith_message)
    | Some (FormFile video) =>
        if negb (startsWith (file_type video) "video/") then
          rret {| resp_body :=
                    ResponseError "Invalid file type"
                      (Some ("Expected a video file, got "
                             ++ file_type video)%string);
                  resp_status := 400 |}
        else
          let rawOptions :=
            {| raw_model := entry_or_undefined (formData "model");
               raw_language := entry_or_undefined (formData "language");
               raw_prompt := entry_or_undefined (formData "prompt");
               raw_chunkSeconds := entry_or_undefined (formData "chunkSeconds");
               raw_responseFormat :=
                 entry_or_undefined (formData "responseFormat") |} in
          match env_safeParse env rawOptions with
          | inl issues =>
              rret {| resp_body :=
                        ResponseError "Invalid request parameters"
                          (Some (join ", " issues));
                      resp_status := 400 |}
          | inr options => transcribe_video env video options
          end
    end.

(** [if (tempDir)]: [null] and the empty string are falsy. *)
Definition tempDir_to_clean (tempDir : option string) : option string :=
  match tempDir with
  | Some (String c rest) => Some (String c rest)
  | _ => None
  end.

(** The handler: the [try] block, the [catch] block on what it throws,
    and the [finally] block, which runs in every case before the
    response is returned. *)
Definition POST (env : Environment) (log : Log) : Response * RouteState :=
  let (outcome, st) :=
    try_block env {| rs_log := log; rs_steps := []; rs_tempDir := None |} in
  let response :=
    match outcome with
    | inr response => response
    | inl error => error_response error
    end in
  match tempDir_to_clean (rs_tempDir st) with
  | Some tempDir =>
      (response,
       {| rs_log := rs_log st;
          rs_steps := rs_steps st ++ [StepCleanupTempDir tempDir];
          rs_tempDir := rs_tempDir st |})
  | None => (response, st)
  end.

(** * Vocabulary of the statements *)

(** [t] is the last [n] characters of [s], or the whole of [s] when [s]
    has at most [n] characters: a suffix of [s] of length
    [min n (length s)]. *)
Definition last_chars_of (n : nat) (s t : string) : Prop :=
  (exists front, s = (front ++ t)%string) /\
  String.length t = Nat.min n (String.length s).

(** The failure signals of the error taxonomy. *)
Definition rate_limit_signal (error : JsError) : Prop :=
  status_of error = Some 429.

Definition transient_signal (error : JsError) : Prop :=
  (exists s, status_of error = Some s /\ 500 <= s) \/
  code_of error = Some "ECONNRESET" \/
  code_of error = Some "ETIMEDOUT".

Definition retriable_signal (error : JsError) : Prop :=
  rate_limit_signal error \/ transient_signal error.

(** The state [Attempting(n)] of the retry policy: the loop of
    [transcribeAudioFile] at the head of iteration [n]. *)
Definition attempting (api : Log -> Request -> JsError + Transcription)
    (request : Request) (n : Z) (lastError : option JsError) : M string :=
  retry_loop api request (Z.to_nat (maxRetries RETRY_CONFIG - n)) n lastError.

(** The log after a failed request and the back-off sleep that follows
    it. *)
Definition after_failure (log : Log) (request : Request) (error : JsError)
    (ms : Z) : Log :=
  log ++ [EvCreate request (inl error); EvSleep ms].

(** The events one call of [transcribeAudioFile] can log, with its
    result: failed requests each followed by a sleep, then a request that
    succeeds or whose failure is thrown. *)
Inductive call_events (request : Request) : Log -> JsError + string -> Prop :=
| ce_success t :
    call_events request [EvCreate request (inr t)] (inr (text_of t))
| ce_thrown error :
    call_events request [EvCreate request (inl error)] (inl error)
| ce_retry error ms events result :
    call_events request events result ->
    call_events request
      (EvCreate request (inl error) :: EvSleep ms :: events) result
| ce_left error :
    call_events request [] (inl error).

(** [P before q] holds of every request [q] of [events], where [before]
    is [history] followed by the events that precede [q]. *)
Fixpoint each_request (P : Log -> Request -> Prop) (history events : Log)
    : Prop :=
  match events with
  | [] => True
  | ev :: rest =>
      match ev with
      | EvCreate q _ => P history q
      | _ => True
      end /\ each_request P (history ++ [ev]) rest
  end.

(** The rolling prompt the loop of [transcribeChunks] holds after the
    outputs [outs], starting from [initial]. *)
Definition prompt_after (initial : string) (outs : list string) : string :=
  fold_left (fun _ out => next_rollingPrompt out) outs initial.



(** The check the request schema of the API route puts on the user's
    prompt before [transcribeAudio] is called:
    [prompt: z.string().max(1500).optional()]. *)
Definition prompt_schema (prompt : option string) : bool :=
  match prompt with
  | Some p => (String.length p <=? 1500)%nat
  | None => true
  end.

(** The number of words of [s]: of maximal runs of characters that are
    not white space.  [in_word] tells that the character before [s] was
    part of a word. *)
Fixpoint word_runs (s : string) (in_word : bool) : nat :=
  match s with
  | EmptyString => 0
  | String c rest =>
      if is_whitespace c then word_runs rest false
      else ((if in_word then 0 else 1) + word_runs rest true)%nat
  end.

(** The number of characters of [s] that are not white space. *)
Fixpoint visible_characters (s : string) : nat :=
  match s with
  | EmptyString => 0
  | String c rest =>
      ((if is_whitespace c then 0 else 1) + visible_characters rest)%nat
  end.

(** The sum of a list of counts. *)
Definition total (counts : list Z) : Z := fold_right Z.add 0 counts.

(** A speech service that answers every request with a rate-limit
    signal. *)
Definition always_rate_limits
    (api : Log -> Request -> JsError + Transcription) : Prop :=
  forall log q, exists error, api log q = inl error /\ rate_limit_signal error.

(** The progress notifications of a log, oldest first. *)
Fixpoint progress_reports (log : Log) : list (Z * Z) :=
  match log with
  | [] => []
  | EvProgress current total :: rest =>
      (current, total) :: progress_reports rest
  | _ :: rest => progress_reports rest
  end.

(** [(first, total); (first + 1, total); ...], [count] pairs in all. *)
Fixpoint reports_from (first total : Z) (count : nat) : list (Z * Z) :=
  match count with
  | O => []
  | S count' => (first, total) :: reports_from (first + 1) total count'
  end.

(** The events one notification of progress logs. *)
Definition progress_events (onProgress : option Observer)
    (current total : Z) : Log :=
  match onProgress with
  | Some _ => [EvProgress current total]
  | None => []
  end.

(** How one notification of progress ends, made when the log is [log]. *)
Definition notification (onProgress : option Observer) (log : Log)
    (current total : Z) : JsError + unit :=
  match onProgress with
  | Some observer => observer log current total
  | None => inr tt
  end.

(** The back-off delays slept from attempt [n] on, [count] of them. *)
Fixpoint delays_from (n : Z) (count : nat) : list Z :=
  match count with
  | O => []
  | S count' => getRetryDelay n :: delays_from (n + 1) count'
  end.

(** A speech service that rejects every request as unauthorized, with
    status 401 and no transient signal. *)
Definition always_unauthorized
    (api : Log -> Request -> JsError + Transcription) : Prop :=
  forall log q, exists error,
    api log q = inl error /\ status_of error = Some 401 /\
    ~ retriable_signal error.

Section Calls.

Variable api : Log -> Request -> JsError + Transcription.
Variable options : ChunkOptions.
Variable total : Z.

(** [calls_succeed chunks i prompt log outs prompt' log']: the loop of
    [transcribeChunks], at index [i] with rolling prompt [prompt] and log
    [log], issues the calls for the consecutive chunks [chunks] one after
    the other; every one of them returns an output, and the observer,
    when there is one, returns from the notification that follows it.
    [outs] are these outputs in order, [prompt'] and [log'] the rolling
    prompt and the log after the last notification. *)
Inductive calls_succeed :
    list AudioChunk -> Z -> string -> Log ->
    list string -> string -> Log -> Prop :=
| cs_none i prompt log :
    calls_succeed [] i prompt log [] prompt log
| cs_call chunk chunks i prompt log out log1 log2 outs prompt' log' :
    transcribeAudioFile api (path chunk) (chunk_call_options options prompt)
      log = (inr out, log1) ->
    report_progress (co_onProgress options) (i + 1) total log1
      = (inr tt, log2) ->
    calls_succeed chunks (i + 1) (next_rollingPrompt out) log2
      outs prompt' log' ->
    calls_succeed (chunk :: chunks) i prompt log (out :: outs) prompt' log'.

End Calls.

(** ** Sample services and inputs *)

Definition error_429 : JsError :=
  ErrorObject (Some 429) None "Rate limit exceeded".

Definition error_401 : JsError :=
  ErrorObject (Some 401) None "Incorrect API key provided".

(** A service that always answers with a rate-limit error. *)
Definition always_rate_limited (log : Log) (q : Request)
    : JsError + Transcription :=
  inl error_429.

(** A service that answers with a rate-limit error until the caller has
    slept twice. *)
Definition rate_limited_twice (log : Log) (q : Request)
    : JsError + Transcription :=
  if (List.length (sleeps log) <? 2)%nat then inl error_429
  else inr (TranscriptionString "Hello world.").

(** A service that answers at once. *)
Definition immediate (log : Log) (q : Request) : JsError + Transcription :=
  inr (TranscriptionString "Hello world.").

(** The example scenario: three segments, the second of which is served
    on the third attempt, and a fourth file the service rejects. *)
Definition sample_service (log : Log) (q : Request) : JsError + Transcription :=
  if String.eqb (req_file q) "chunk_000.mp3"
  then inr (TranscriptionString "Hello world.")
  else if String.eqb (req_file q) "chunk_001.mp3"
  then if (List.length (sleeps log) <? 2)%nat then inl error_429
       else inr (TranscriptionObject "This is segment two.")
  else if String.eqb (req_file q) "chunk_002.mp3"
  then inr (TranscriptionString "Final segment here.")
  else inl error_401.

Definition sample_chunks : list AudioChunk :=
  [ mkAudioChunk "chunk_000.mp3" 0 480;
    mkAudioChunk "chunk_001.mp3" 1 480;
    mkAudioChunk "chunk_002.mp3" 2 125 ].

Definition no_chunk_options : ChunkOptions :=
  mkChunkOptions None None None None None.

Definition no_audio_options : AudioOptions :=
  mkAudioOptions None None None None None.

(** A chunk the sample service rejects. *)
Definition rejected_chunk : AudioChunk := mkAudioChunk "chunk_003.mp3" 3 60.

(** An initial hint of 1501 characters. *)
Definition long_hint : string :=
  string_of_list_ascii (repeat "a"%char 1501).

Definition long_hint_options : ChunkOptions :=
  mkChunkOptions None None (Some long_hint) None None.

(** The requests [transcribeChunks] makes for the first two sample
    chunks when no initial hint is given. *)
Definition sample_request_0 : Request :=
  request_of "chunk_000.mp3" (chunk_call_options no_chunk_options "").

Definition sample_request_1 : Request :=
  request_of "chunk_001.mp3"
    (chunk_call_options no_chunk_options "Hello world.").

Definition sample_request : Request :=
  request_of "extracted_audio.mp3" (mkFileOptions None None None None).

(** A request to the route: a video file of 3 MB and a prompt, on a
    server where every collaborator succeeds and the extracted audio is
    small. *)
Definition sample_video : UploadedFile :=
  mkUploadedFile "talk.mp4" "video/mp4" 3000000.

Definition sample_formData (name : string) : option FormValue :=
  if String.eqb name "video" then Some (FormFile sample_video)
  else if String.eqb name "prompt" then Some (FormString "Rocq, Gallina")
  else None.

Definition sample_safeParse (raw : RawOptions) : list string + RequestData :=
  match raw_prompt raw with
  | Some (FormString p) =>
      if (String.length p <=? 1500)%nat
      then inr (mkRequestData whisper_1 None (Some p) 480 text_format)
      else inl ["String must contain at most 1500 character(s)"]
  | Some (FormFile _) => inl ["Expected string, received object"]
  | None => inr (mkRequestData whisper_1 None None 480 text_format)
  end.

Definition sample_environment
    (api : Log -> Request -> JsError + Transcription) : Environment :=
  {| env_startTime := 1000;
     env_endTime := 5200;
     env_checkFfmpegAvailable := true;
     env_formData := inr sample_formData;
     env_safeParse := sample_safeParse;
     env_createTempDir := inr "/tmp/transcriptions/t1";
     env_saveUploadedFile := fun _ dir => inr (dir ++ "/video_1.mp4")%string;
     env_extractAudio :=
       fun _ output => inr (mkAudioExtractionResult output 61 488000);
     env_mkdir := fun _ => inr tt;
     env_chunkAudio := fun _ _ _ => inr (mkChunkingResult [] 0);
     env_path_join := fun dir name => (dir ++ "/" ++ name)%string;
     env_create := api |}.

(** A service that rejects the API key. *)
Definition always_rejected (log : Log) (q : Request)
    : JsError + Transcription :=
  inl error_401.

(** A server without ffmpeg. *)
Definition no_ffmpeg_environment : Environment :=
  {| env_startTime := 1000;
     env_endTime := 1001;
     env_checkFfmpegAvailable := false;
     env_formData := inr sample_formData;
     env_safeParse := sample_safeParse;
     env_createTempDir := inr "/tmp/transcriptions/t1";
     env_saveUploadedFile := fun _ dir => inr (dir ++ "/video_1.mp4")%string;
     env_extractAudio :=
       fun _ output => inr (mkAudioExtractionResult output 61 488000);
     env_mkdir := fun _ => inr tt;
     env_chunkAudio := fun _ _ _ => inr (mkChunkingResult [] 0);
     env_path_join := fun dir name => (dir ++ "/" ++ name)%string;
     env_create := immediate |}.

(** Options of [transcribeChunks] with a progress observer. *)
Definition progress_options : ChunkOptions :=
  mkChunkOptions None None None None (Some (fun _ _ _ => inr tt)).

(** An observer that throws on every notification, and options that
    supply it. *)
Definition observer_error : JsError :=
  ErrorObject None None "progress bar is gone".

Definition throwing_observer : Observer := fun _ _ _ => inl observer_error.

Definition throwing_observer_options : ChunkOptions :=
  mkChunkOptions None None None None (Some throwing_observer).

(** * Properties *)

(** ** Facts about strings *)

Section StringFacts.

Lemma length_append (s t : string) :
  String.length (s ++ t)%string = (String.length s + String.length t)%nat.
Proof.
  induction s as [| a s IH]; simpl; [reflexivity | now rewrite IH].
Qed.

Lemma substring_all (s : string) : substring 0 (String.length s) s = s.
Proof.
  induction s as [| a s IH]; simpl; [reflexivity | now rewrite IH].
Qed.

(** Cutting a string at position [n] loses nothing. *)
Lemma substring_split (s : string) (n : nat) :
  (n <= String.length s)%nat ->
  s = (substring 0 n s ++ substring n (String.length s - n) s)%string.
Proof.
  revert n; induction s as [| a s IH]; intros [| n] Hn; simpl in *.
  - reflexivity.
  - lia.
  - now rewrite substring_all.
  - f_equal. apply IH. lia.
Qed.

Lemma length_substring (s : string) (n m : nat) :
  (n + m <= String.length s)%nat -> String.length (substring n m s) = m.
Proof.
  revert n m; induction s as [| a s IH]; intros [| n] [| m] H; simpl in *;
    try reflexivity; try lia.
  - f_equal. apply (IH 0%nat). simpl. lia.
  - apply IH. lia.
  - apply IH. lia.
Qed.

Lemma last_chars_of_unique (n : nat) (s t u : string) :
  last_chars_of n s t -> last_chars_of n s u -> t = u.
Proof.
  intros [[f Hf] Ht] [[g Hg] Hu].
  assert (Hlen : String.length t = String.length u) by congruence.
  clear Ht Hu. subst s. revert g Hg.
  induction f as [| a f IH]; intros g Hg.
  - destruct g as [| b g]; simpl in Hg; [assumption |].
    exfalso. apply (f_equal String.length) in Hg. simpl in Hg.
    rewrite length_append in Hg. lia.
  - destruct g as [| b g]; simpl in Hg.
    + exfalso. apply (f_equal String.length) in Hg. simpl in Hg.
      rewrite length_append in Hg. lia.
    + injection Hg as _ Hg. now apply (IH g).
Qed.

Lemma slice_negative (s : string) (k : Z) :
  0 < k <= Z.of_nat (String.length s) ->
  last_chars_of (Z.to_nat k) s (slice s (- k)).
Proof.
  intros Hk. unfold slice.
  replace (- k <? 0) with true by (symmetry; apply Z.ltb_lt; lia).
  rewrite Z.max_l by lia.
  set (len := String.length s) in *.
  replace (Z.to_nat (Z.of_nat len + - k)) with (len - Z.to_nat k)%nat by lia.
  replace (Z.to_nat (Z.of_nat len - (Z.of_nat len + - k))) with (Z.to_nat k)
    by lia.
  split.
  - exists (substring 0 (len - Z.to_nat k) s).
    rewrite (substring_split s (len - Z.to_nat k)) at 1 by (unfold len; lia).
    do 2 f_equal. unfold len. lia.
  - rewrite length_substring by (unfold len; lia). unfold len. lia.
Qed.

(** The update of the rolling prompt keeps the last 1500 characters of
    the transcript, all of it when it is no longer than that. *)
Lemma next_rollingPrompt_last_chars (transcript : string) :
  last_chars_of 1500 transcript (next_rollingPrompt transcript).
Proof.
  unfold next_rollingPrompt, ROLLING_PROMPT_LENGTH.
  destruct (Z.gtb_spec (Z.of_nat (String.length transcript)) 1500) as [H | H].
  - change 1500%nat with (Z.to_nat 1500). apply slice_negative. lia.
  - split; [now exists "" | lia].
Qed.

Lemma next_rollingPrompt_bounded (transcript : string) :
  (String.length (next_rollingPrompt transcript) <= 1500)%nat.
Proof.
  destruct (next_rollingPrompt_last_chars transcript) as [_ H]. lia.
Qed.

Lemma join_concat (sep : string) (xs : list string) :
  join sep xs = String.concat sep xs.
Proof.
  induction xs as [| x [| y rest] IH]; simpl in *; congruence.
Qed.

End StringFacts.

(** ** The retry policy of [transcribeAudioFile] *)

Section RetryPolicy.

Variable api : Log -> Request -> JsError + Transcription.

Lemma is_rate_limit_signal (error : JsError) :
  is_rate_limit error = true <-> rate_limit_signal error.
Proof.
  unfold is_rate_limit, rate_limit_signal.
  destruct (status_of error) as [s |]; [| split; discriminate].
  rewrite Z.eqb_eq. split; congruence.
Qed.

Lemma isRetriable_signal (error : JsError) :
  isRetriable error = true <-> transient_signal error.
Proof.
  unfold isRetriable, transient_signal.
  rewrite !orb_true_iff.
  assert (Hstatus :
    match status_of error with Some s => s >=? 500 | None => false end = true
    <-> exists s, status_of error = Some s /\ 500 <= s).
  { destruct (status_of error) as [s |].
    - rewrite Z.geb_le. split.
      + intros H. now exists s.
      + intros (s' & Heq & H). now injection Heq as ->.
    - split; [discriminate | intros (s' & Heq & _); discriminate]. }
  assert (Hcode : forall name,
    match code_of error with Some c => String.eqb c name | None => false end
      = true
    <-> code_of error = Some name).
  { intros name. destruct (code_of error) as [c |].
    - rewrite String.eqb_eq. split; congruence.
    - split; discriminate. }
  rewrite Hstatus, !Hcode. tauto.
Qed.

Lemma retries_signal (error : JsError) :
  is_rate_limit error || isRetriable error = true <-> retriable_signal error.
Proof.
  unfold retriable_signal.
  now rewrite orb_true_iff, is_rate_limit_signal, isRetriable_signal.
Qed.

(** One iteration of the loop, in any state [Attempting(n)]. *)
Lemma attempting_step (request : Request) (n : Z) (lastError : option JsError)
    (log : Log) :
  0 <= n < maxRetries RETRY_CONFIG ->
  attempting api request n lastError log =
  match api log request with
  | inr t => (inr (text_of t), log ++ [EvCreate request (inr t)])
  | inl error =>
      if (is_rate_limit error || isRetriable error)
         && (n + 1 <? maxRetries RETRY_CONFIG)
      then attempting api request (n + 1) (Some error)
             (log ++ [EvCreate request (inl error); EvSleep (getRetryDelay n)])
      else (inl error, log ++ [EvCreate request (inl error)])
  end.
Proof.
  intros Hn. unfold attempting.
  replace (Z.to_nat (maxRetries RETRY_CONFIG - n))
    with (S (Z.to_nat (maxRetries RETRY_CONFIG - (n + 1)))) by lia.
  cbn [retry_loop]. unfold bind at 1. unfold try_create at 1.
  destruct (api log request) as [error | t]; [| reflexivity].
  replace (n <? maxRetries RETRY_CONFIG - 1)
    with (n + 1 <? maxRetries RETRY_CONFIG)
    by (apply eq_true_iff_eq; rewrite !Z.ltb_lt; lia).
  replace (log ++ [EvCreate request (inl error); EvSleep (getRetryDelay n)])
    with ((log ++ [EvCreate request (inl error)]) ++ [EvSleep (getRetryDelay n)])
    by (now rewrite <- app_assoc).
  destruct (is_rate_limit error), (isRetriable error),
    (n + 1 <? maxRetries RETRY_CONFIG); reflexivity.
Qed.

Lemma transcribeAudioFile_attempting (audioPath : string)
    (options : FileOptions) :
  transcribeAudioFile api audioPath options =
  attempting api (request_of audioPath options) 0 None.
Proof. reflexivity. Qed.

(** The log of one call: the input log, extended by events of the shape
    [call_events], at most [remaining] requests among them. *)
Lemma retry_loop_events (request : Request) (remaining : nat) :
  forall (attempt : Z) (lastError : option JsError) (log : Log),
  exists events result,
    retry_loop api request remaining attempt lastError log
      = (result, log ++ events) /\
    call_events request events result /\
    (List.length (requests events) <= remaining)%nat.
Proof.
  induction remaining as [| remaining IH]; intros attempt lastError log.
  - exists [], (inl (lastError_or_new lastError)). cbn. rewrite app_nil_r.
    repeat split; [constructor | lia].
  - cbn [retry_loop]. unfold bind at 1. unfold try_create at 1.
    destruct (api log request) as [error | t].
    + set (log1 := log ++ [EvCreate request (inl error)]).
      assert (Hretry :
        exists events result,
          (sleep (getRetryDelay attempt) ;;;
           retry_loop api request remaining (attempt + 1) (Some error)) log1
            = (result, log ++ events) /\
          call_events request events result /\
          (List.length (requests events) <= S remaining)%nat).
      { unfold bind, sleep. cbn beta iota.
        destruct (IH (attempt + 1) (Some error)
                    (log1 ++ [EvSleep (getRetryDelay attempt)]))
          as (events & result & Hrun & Hshape & Hcount).
        exists (EvCreate request (inl error)
                  :: EvSleep (getRetryDelay attempt) :: events), result.
        split; [| split].
        - rewrite Hrun. unfold log1. now rewrite <- !app_assoc.
        - now apply ce_retry.
        - cbn. lia. }
      destruct (is_rate_limit error && (attempt <? maxRetries RETRY_CONFIG - 1));
        [exact Hretry |].
      destruct (isRetriable error && (attempt <? maxRetries RETRY_CONFIG - 1));
        [exact Hretry |].
      exists [EvCreate request (inl error)], (inl error).
      cbn. repeat split; [constructor | lia].
    + exists [EvCreate request (inr t)], (inr (text_of t)).
      cbn. repeat split; [constructor | lia].
Qed.

Lemma transcribeAudioFile_events (audioPath : string) (options : FileOptions)
    (log : Log) :
  exists events result,
    transcribeAudioFile api audioPath options log = (result, log ++ events) /\
    call_events (request_of audioPath options) events result /\
    (List.length (requests events) <= 3)%nat.
Proof.
  apply (retry_loop_events (request_of audioPath options) 3).
Qed.

(** C4. In [transcribeAudioFile] (which starts in [Attempting(0)], with
    [maxRetries = 3]), a failure at attempt [n] that carries a rate-limit
    signal (status 429) or a transient signal (status at least 500, code
    ECONNRESET or ETIMEDOUT) is retried whenever [n + 1 < maxRetries]: the
    loop sleeps and goes on in [Attempting(n + 1)].  A failure with any
    other signal is thrown on the attempt where it occurs: the call ends
    with that error and the failed request is the last event logged. *)
Theorem retry_only_retriable_signals (request : Request) (n : Z)
    (lastError : option JsError) (log : Log) (error : JsError) :
  0 <= n < maxRetries RETRY_CONFIG ->
  api log request = inl error ->
  maxRetries RETRY_CONFIG = 3 /\
  (forall audioPath options,
     transcribeAudioFile api audioPath options
     = attempting api (request_of audioPath options) 0 None) /\
  (retriable_signal error -> n + 1 < maxRetries RETRY_CONFIG ->
     attempting api request n lastError log
     = attempting api request (n + 1) (Some error)
         (after_failure log request error (getRetryDelay n))) /\
  (~ retriable_signal error ->
     attempting api request n lastError log
     = (inl error, log ++ [EvCreate request (inl error)])).
Proof.
  intros Hn Hfail.
  split; [reflexivity |]. split; [reflexivity |].
  rewrite (attempting_step request n lastError log Hn), Hfail.
  split.
  - intros Hsignal Hnext.
    apply retries_signal in Hsignal. rewrite Hsignal.
    apply Z.ltb_lt in Hnext. now rewrite Hnext.
  - intros Hother.
    destruct (is_rate_limit error || isRetriable error) eqn:Hsignal;
      [| reflexivity].
    apply retries_signal in Hsignal. contradiction.
Qed.

(** C6. For every attempt index [n >= 0] the back-off delay is
    [min (initialDelay * 2^n, maxDelay)] with [initialDelay = 1000] and
    [maxDelay = 10000]; the delays before the second and the third attempt
    are 1000 and 2000; and this is the delay slept before the retry
    transition out of [Attempting(n)]. *)
Theorem backoff_delay (n : Z) :
  0 <= n ->
  getRetryDelay n = Z.min (1000 * 2 ^ n) 10000 /\
  initialDelayMs RETRY_CONFIG = 1000 /\
  maxDelayMs RETRY_CONFIG = 10000 /\
  getRetryDelay 0 = 1000 /\
  getRetryDelay 1 = 2000 /\
  (forall request lastError log error,
     n + 1 < maxRetries RETRY_CONFIG ->
     api log request = inl error ->
     retriable_signal error ->
     exists events result,
       attempting api request n lastError log
       = (result,
          log ++ EvCreate request (inl error)
              :: EvSleep (Z.min (1000 * 2 ^ n) 10000) :: events)).
Proof.
  intros Hn. repeat (split; [reflexivity |]).
  intros request lastError log error Hnext Hfail Hsignal.
  rewrite attempting_step, Hfail by lia.
  apply retries_signal in Hsignal. rewrite Hsignal.
  apply Z.ltb_lt in Hnext. rewrite Hnext. cbn [andb].
  unfold attempting, after_failure.
  destruct (retry_loop_events request
              (Z.to_nat (maxRetries RETRY_CONFIG - (n + 1))) (n + 1)
              (Some error)
              (log ++ [EvCreate request (inl error); EvSleep (getRetryDelay n)]))
    as (events & result & Hrun & _).
  exists events, result. rewrite Hrun. now rewrite <- app_assoc.
Qed.

End RetryPolicy.

(** ** The log, request by request *)

Section LogFacts.

Lemma outputs_app (a b : Log) : outputs (a ++ b) = outputs a ++ outputs b.
Proof.
  induction a as [| [q [e | t] | ms | c t] a IH]; cbn; congruence.
Qed.

Lemma requests_app (a b : Log) : requests (a ++ b) = requests a ++ requests b.
Proof.
  induction a as [| [q o | ms | c t] a IH]; cbn; congruence.
Qed.

Lemma each_request_app (P : Log -> Request -> Prop) (events1 events2 : Log) :
  forall history,
  each_request P history (events1 ++ events2) <->
  each_request P history events1 /\
  each_request P (history ++ events1) events2.
Proof.
  induction events1 as [| ev events1 IH]; intros history; cbn.
  - rewrite app_nil_r. tauto.
  - rewrite IH, <- app_assoc. cbn. tauto.
Qed.

Lemma each_request_shift (P P' : Log -> Request -> Prop) (prefix : Log) :
  (forall before q, P' before q -> P (prefix ++ before) q) ->
  forall events history,
    each_request P' history events ->
    each_request P (prefix ++ history) events.
Proof.
  intros Himp. induction events as [| ev events IH]; intros history; cbn.
  - trivial.
  - intros [Hev Hrest]. split.
    + destruct ev; auto.
    + rewrite <- app_assoc. now apply IH.
Qed.

Lemma each_request_impl (P P' : Log -> Request -> Prop) :
  (forall before q, P' before q -> P before q) ->
  forall events history,
    each_request P' history events -> each_request P history events.
Proof.
  intros Himp events history H.
  apply (each_request_shift P P' [] Himp events history H).
Qed.

Lemma each_request_at (P : Log -> Request -> Prop) (events : Log) :
  forall history before q o after,
    each_request P history events ->
    events = before ++ EvCreate q o :: after ->
    P (history ++ before) q.
Proof.
  intros history before q o after H ->.
  apply each_request_app in H. destruct H as [_ H]. cbn in H. tauto.
Qed.

Lemma each_request_in (P : Log -> Request -> Prop) (Q : Request -> Prop) :
  (forall before q, P before q -> Q q) ->
  forall events history,
    each_request P history events ->
    forall q, In q (requests events) -> Q q.
Proof.
  intros Himp. induction events as [| ev events IH]; intros history; cbn.
  - intros _ q [].
  - intros [Hev Hrest] q Hin. destruct ev as [q' o | ms | c t].
    + destruct Hin as [<- | Hin]; eauto.
    + eauto.
    + eauto.
Qed.

(** Within one call of [transcribeAudioFile] every request is the same,
    and none comes after a successful response. *)
Lemma call_events_requests (request : Request) (events : Log)
    (result : JsError + string) :
  call_events request events result ->
  forall history, outputs history = [] ->
    each_request (fun before q => q = request /\ outputs before = [])
      history events.
Proof.
  induction 1 as [t | error | error ms events result _ IH | error];
    intros history Hnone; cbn; auto.
  repeat split; auto.
  - apply IH. now rewrite !outputs_app, Hnone.
Qed.

Lemma call_events_outputs (request : Request) (events : Log)
    (result : JsError + string) :
  call_events request events result ->
  outputs events = match result with inr out => [out] | inl _ => [] end.
Proof.
  induction 1; cbn; auto.
Qed.

Lemma report_progress_run (onProgress : option Observer) (current total : Z)
    (log : Log) :
  report_progress onProgress current total log
  = (notification onProgress log current total,
     log ++ progress_events onProgress current total).
Proof.
  destruct onProgress; cbn; [reflexivity | now rewrite app_nil_r].
Qed.

Lemma progress_events_quiet (onProgress : option Observer)
    (current total : Z) :
  outputs (progress_events onProgress current total) = [] /\
  requests (progress_events onProgress current total) = [] /\
  each_request (fun _ _ => False) [] (progress_events onProgress current total).
Proof.
  destruct onProgress; cbn; auto.
Qed.

Lemma prompt_after_snoc (initial : string) (outs : list string) (out : string) :
  prompt_after initial (outs ++ [out]) = next_rollingPrompt out.
Proof.
  unfold prompt_after. now rewrite fold_left_app.
Qed.

End LogFacts.

(** ** The loop of [transcribeChunks] *)

Section ChunkLoop.

Variable api : Log -> Request -> JsError + Transcription.
Variable options : ChunkOptions.
Variable total : Z.

(** When every call succeeds the loop returns the outputs, appended in
    order to what it had accumulated. *)
Lemma chunk_loop_succeeds (chunks : list AudioChunk) (i : Z) (prompt : string)
    (log : Log) (outs : list string) (prompt' : string) (log' : Log) :
  calls_succeed api options total chunks i prompt log outs prompt' log' ->
  forall transcripts,
    chunk_loop api options total chunks i transcripts prompt log
    = (inr (transcripts ++ outs), log').
Proof.
  induction 1 as [i prompt log
                 | chunk chunks i prompt log out log1 log2 outs prompt' log'
                     Hcall Hnotified _ IH];
    intros transcripts; cbn [chunk_loop].
  - unfold ret. now rewrite app_nil_r.
  - unfold bind at 1. rewrite Hcall.
    unfold bind at 1. rewrite Hnotified.
    rewrite IH, <- app_assoc. reflexivity.
Qed.

(** When the calls for the chunks [before] succeed and the next one fails,
    the loop stops there with that error. *)
Lemma chunk_loop_fails (before : list AudioChunk) (i : Z) (prompt : string)
    (log : Log) (outs : list string) (prompt1 : string) (log1 : Log) :
  calls_succeed api options total before i prompt log outs prompt1 log1 ->
  forall chunk after error log2 transcripts,
    transcribeAudioFile api (path chunk) (chunk_call_options options prompt1)
      log1 = (inl error, log2) ->
    chunk_loop api options total (before ++ chunk :: after) i transcripts
      prompt log
    = (inl error, log2).
Proof.
  induction 1 as [i prompt log
                 | c chunks i prompt log out log1 log2 outs prompt' log'
                     Hcall Hnotified _ IH];
    intros chunk after error log3 transcripts Hfail; cbn [chunk_loop app].
  - unfold bind at 1. now rewrite Hfail.
  - unfold bind at 1. rewrite Hcall.
    unfold bind at 1. rewrite Hnotified.
    now apply IH.
Qed.

(** When the calls for the chunks [before] and the next one succeed and
    the observer throws on the notification that follows, the loop stops
    there with what the observer threw. *)
Lemma chunk_loop_observer_throws (before : list AudioChunk) (i : Z)
    (prompt : string) (log : Log) (outs : list string) (prompt1 : string)
    (log1 : Log) :
  calls_succeed api options total before i prompt log outs prompt1 log1 ->
  forall chunk after out log2 error log3 transcripts,
    transcribeAudioFile api (path chunk) (chunk_call_options options prompt1)
      log1 = (inr out, log2) ->
    report_progress (co_onProgress options)
      (i + Z.of_nat (List.length before) + 1) total log2 = (inl error, log3) ->
    chunk_loop api options total (before ++ chunk :: after) i transcripts
      prompt log
    = (inl error, log3).
Proof.
  induction 1 as [i prompt log
                 | c chunks i prompt log out0 log1 log2 outs prompt' log'
                     Hcall Hnotified _ IH];
    intros chunk after out l2 error l3 transcripts Hout Hthrown;
    cbn [chunk_loop app].
  - unfold bind at 1. rewrite Hout. unfold bind at 1.
    cbn [List.length Z.of_nat] in Hthrown.
    replace (i + 0 + 1) with (i + 1) in Hthrown by lia.
    now rewrite Hthrown.
  - unfold bind at 1. rewrite Hcall.
    unfold bind at 1. rewrite Hnotified.
    apply IH with (out := out) (log2 := l2); [exact Hout |].
    replace (i + 1 + Z.of_nat (List.length chunks) + 1)
      with (i + Z.of_nat (List.length (c :: chunks)) + 1)
      by (cbn [List.length]; lia).
    exact Hthrown.
Qed.

(** Every run of the loop is of one of three kinds: every call and
    every notification succeeds; a first call fails; or the observer
    throws on a first notification. *)
Lemma chunk_loop_cases (chunks : list AudioChunk) :
  forall (i : Z) (prompt : string) (log : Log),
    (exists outs prompt' log',
       calls_succeed api options total chunks i prompt log outs prompt' log')
    \/
    (exists before chunk after outs prompt1 log1 error log2,
       chunks = before ++ chunk :: after /\
       calls_succeed api options total before i prompt log outs prompt1 log1 /\
       transcribeAudioFile api (path chunk)
         (chunk_call_options options prompt1) log1 = (inl error, log2))
    \/
    (exists before chunk after outs prompt1 log1 out log2 error log3,
       chunks = before ++ chunk :: after /\
       calls_succeed api options total before i prompt log outs prompt1 log1 /\
       transcribeAudioFile api (path chunk)
         (chunk_call_options options prompt1) log1 = (inr out, log2) /\
       report_progress (co_onProgress options)
         (i + Z.of_nat (List.length before) + 1) total log2
       = (inl error, log3)).
Proof.
  induction chunks as [| chunk chunks IH]; intros i prompt log.
  - left. exists [], prompt, log. constructor.
  - destruct (transcribeAudioFile api (path chunk)
                (chunk_call_options options prompt) log)
      as [[error | out] log1] eqn:Hcall.
    + right. left. exists [], chunk, chunks, [], prompt, log, error, log1.
      repeat split; [constructor | assumption].
    + destruct (report_progress (co_onProgress options) (i + 1) total log1)
        as [[error | []] log2] eqn:Hnotified.
      * right. right.
        exists [], chunk, chunks, [], prompt, log, out, log1, error, log2.
        repeat split; [constructor | assumption |].
        cbn [List.length Z.of_nat].
        now replace (i + 0 + 1) with (i + 1) by lia.
      * destruct (IH (i + 1) (next_rollingPrompt out) log2)
          as [(outs & prompt' & log' & Hall)
             | [(before & c & after & outs & prompt1 & l1 & error & l2
                 & -> & Hpre & Hfail)
               | (before & c & after & outs & prompt1 & l1 & o & l2 & error
                  & l3 & -> & Hpre & Hout & Hthrown)]].
        -- left. exists (out :: outs), prompt', log'.
           now apply cs_call with (log1 := log1) (log2 := log2).
        -- right. left.
           exists (chunk :: before), c, after, (out :: outs), prompt1, l1,
             error, l2.
           repeat split; [| assumption].
           now apply cs_call with (log1 := log1) (log2 := log2).
        -- right. right.
           exists (chunk :: before), c, after, (out :: outs), prompt1, l1,
             o, l2, error, l3.
           repeat split; [| assumption |].
           ++ now apply cs_call with (log1 := log1) (log2 := log2).
           ++ replace (i + Z.of_nat (List.length (chunk :: before)) + 1)
                with (i + 1 + Z.of_nat (List.length before) + 1)
                by (cbn [List.length]; lia).
              exact Hthrown.
Qed.

Lemma calls_succeed_length (chunks : list AudioChunk) (i : Z) (prompt : string)
    (log : Log) (outs : list string) (prompt' : string) (log' : Log) :
  calls_succeed api options total chunks i prompt log outs prompt' log' ->
  List.length outs = List.length chunks.
Proof.
  induction 1; cbn; congruence.
Qed.

(** Every request of the loop is the request for the chunk whose turn it
    is, under the rolling prompt left by the outputs received so far. *)
Lemma chunk_loop_requests (chunks : list AudioChunk) :
  forall (i : Z) (transcripts : list string) (prompt : string) (log : Log),
  exists events result,
    chunk_loop api options total chunks i transcripts prompt log
      = (result, log ++ events) /\
    each_request
      (fun before q =>
         exists chunk,
           nth_error chunks (List.length (outputs before)) = Some chunk /\
           q = request_of (path chunk)
                 (chunk_call_options options
                    (prompt_after prompt (outputs before))))
      [] events.
Proof.
  induction chunks as [| chunk chunks IH]; intros i transcripts prompt log.
  - exists [], (inr transcripts). cbn. now rewrite app_nil_r.
  - cbn [chunk_loop]. unfold bind at 1.
    destruct (transcribeAudioFile_events api (path chunk)
                (chunk_call_options options prompt) log)
      as (events1 & result1 & Hcall & Hshape & _).
    rewrite Hcall.
    assert (Hfirst :
      each_request
        (fun before q =>
           exists c,
             nth_error (chunk :: chunks) (List.length (outputs before))
               = Some c /\
             q = request_of (path c)
                   (chunk_call_options options
                      (prompt_after prompt (outputs before))))
        [] events1).
    { apply each_request_impl
        with (2 := call_events_requests _ _ _ Hshape [] eq_refl).
      intros before q [-> Hnone]. rewrite Hnone. now exists chunk. }
    destruct result1 as [error | out].
    + exists events1, (inl error). split; [reflexivity | exact Hfirst].
    + unfold bind at 1. rewrite report_progress_run.
      set (events2 := progress_events (co_onProgress options) (i + 1) total).
      assert (Hquiet :
        each_request
          (fun before q =>
             exists c,
               nth_error (chunk :: chunks) (List.length (outputs before))
                 = Some c /\
               q = request_of (path c)
                     (chunk_call_options options
                        (prompt_after prompt (outputs before))))
          ([] ++ events1) events2).
      { unfold events2. destruct (co_onProgress options); cbn; auto. }
      destruct (notification (co_onProgress options) (log ++ events1) (i + 1)
                  total) as [thrown | []].
      * exists (events1 ++ events2), (inl thrown).
        split; [now rewrite <- app_assoc |].
        apply each_request_app. split; [exact Hfirst | exact Hquiet].
      * destruct (IH (i + 1) (transcripts ++ [out]) (next_rollingPrompt out)
                    ((log ++ events1) ++ events2))
          as (events3 & result & Hrest & Hlater).
        exists (events1 ++ events2 ++ events3), result.
        split; [rewrite Hrest; now rewrite <- !app_assoc |].
        apply each_request_app. split; [exact Hfirst |].
        apply each_request_app. split; [exact Hquiet |].
        cbn [app]. rewrite <- (app_nil_r (events1 ++ events2)).
        apply (each_request_shift _ _ (events1 ++ events2)) with (2 := Hlater).
        intros before q (c & Hnth & ->).
        assert (Houts : outputs ((events1 ++ events2) ++ before)
                        = out :: outputs before).
        { rewrite !outputs_app, (call_events_outputs _ _ _ Hshape).
          unfold events2.
          now rewrite (proj1 (progress_events_quiet _ _ _)). }
        rewrite Houts. now exists c.
Qed.

End ChunkLoop.

(** ** The rolling prompt *)

Section RollingPrompt.



Lemma or_undefined_some (hint p : string) :
  or_undefined hint = Some p -> p = hint.
Proof.
  destruct hint; cbn; congruence.
Qed.

Lemma prompt_after_bounded (initial : string) (outs : list string) :
  (String.length initial <= 1500)%nat \/ outs <> [] ->
  (String.length (prompt_after initial outs) <= 1500)%nat.
Proof.
  destruct outs as [| out outs _] using rev_ind.
  - intros [H | H]; [exact H | contradiction].
  - intros _. rewrite prompt_after_snoc. apply next_rollingPrompt_bounded.
Qed.

End RollingPrompt.

(** ** The pipeline *)

Section Pipeline.

Variable api : Log -> Request -> JsError + Transcription.

Lemma transcribeChunks_run (chunks : list AudioChunk) (options : ChunkOptions)
    (log : Log) :
  transcribeChunks api chunks options log
  = match chunk_loop api options (Z.of_nat (List.length chunks)) chunks 0 []
            (default "" (co_initialPrompt options)) log with
    | (inr transcripts, log') =>
        (inr {| transcript := join blank_line transcripts;
                chunksProcessed := Z.of_nat (List.length chunks) |}, log')
    | (inl error, log') => (inl error, log')
    end.
Proof. reflexivity. Qed.

(** Every request of [transcribeChunks] is the request for the chunk
    whose turn it is, under the rolling prompt left by the outputs
    received so far. *)
Lemma transcribeChunks_requests (chunks : list AudioChunk)
    (options : ChunkOptions) (log : Log) :
  exists events result,
    transcribeChunks api chunks options log = (result, log ++ events) /\
    each_request
      (fun before q =>
         exists chunk,
           nth_error chunks (List.length (outputs before)) = Some chunk /\
           q = request_of (path chunk)
                 (chunk_call_options options
                    (prompt_after (default "" (co_initialPrompt options))
                       (outputs before))))
      [] events.
Proof.
  destruct (chunk_loop_requests api options (Z.of_nat (List.length chunks))
              chunks 0 [] (default "" (co_initialPrompt options)) log)
    as (events & result & Hrun & Hrequests).
  exists events.
  exists (match result with
          | inr transcripts =>
              inr {| transcript := join blank_line transcripts;
                     chunksProcessed := Z.of_nat (List.length chunks) |}
          | inl error => inl error
          end).
  split; [| exact Hrequests].
  rewrite transcribeChunks_run, Hrun. now destruct result.
Qed.

(** C1, as amended.  When the call for every chunk succeeds and the
    observer, if one is given, returns from every notification,
    [transcribeChunks] returns the outputs joined in chunk order with the
    separator of two line feeds between consecutive outputs, and
    [chunksProcessed] is the number of chunks.  (The chunk list may be of
    any length.) *)
Theorem transcript_is_joined_outputs (chunks : list AudioChunk)
    (options : ChunkOptions) (log : Log) (outs : list string)
    (prompt' : string) (log' : Log) :
  calls_succeed api options (Z.of_nat (List.length chunks)) chunks 0
    (default "" (co_initialPrompt options)) log outs prompt' log' ->
  transcribeChunks api chunks options log
  = (inr {| transcript := join blank_line outs;
            chunksProcessed := Z.of_nat (List.length chunks) |}, log') /\
  List.length outs = List.length chunks /\
  blank_line = String (ascii_of_nat 10) (String (ascii_of_nat 10) "") /\
  join blank_line outs = String.concat blank_line outs.
Proof.
  intros Hcalls. split; [| split; [| split]].
  - rewrite transcribeChunks_run.
    now rewrite (chunk_loop_succeeds _ _ _ _ _ _ _ _ _ _ Hcalls []).
  - exact (calls_succeed_length _ _ _ _ _ _ _ _ _ _ Hcalls).
  - reflexivity.
  - apply join_concat.
Qed.


(** C3. When the calls for the chunks before chunk [i] succeed (the
    observer, if any, returning from their notifications, so that chunk
    [i] is reached) and the call for chunk [i] fails with [error], [transcribeChunks] fails with
    that same [error]: no transcript is returned, and its log is the log
    of the failing call, so that every request made from the start of
    that call on is the request for chunk [i] and none is made for a later
    chunk. *)
Theorem failed_chunk_aborts (options : ChunkOptions)
    (before : list AudioChunk) (chunk : AudioChunk) (after : list AudioChunk)
    (log : Log) (outs : list string) (prompt : string) (log1 : Log)
    (error : JsError) (log2 : Log) :
  calls_succeed api options
    (Z.of_nat (List.length (before ++ chunk :: after))) before 0
    (default "" (co_initialPrompt options)) log outs prompt log1 ->
  transcribeAudioFile api (path chunk) (chunk_call_options options prompt) log1
    = (inl error, log2) ->
  transcribeChunks api (before ++ chunk :: after) options log
    = (inl error, log2) /\
  exists events,
    log2 = log1 ++ events /\
    forall q, In q (requests events) ->
      q = request_of (path chunk) (chunk_call_options options prompt).
Proof.
  intros Hbefore Hfail. split.
  - rewrite transcribeChunks_run.
    now rewrite (chunk_loop_fails _ _ _ _ _ _ _ _ _ _ Hbefore
                   chunk after error log2 [] Hfail).
  - destruct (transcribeAudioFile_events api (path chunk)
                (chunk_call_options options prompt) log1)
      as (events & result & Hrun & Hshape & _).
    rewrite Hfail in Hrun. injection Hrun as _ ->.
    exists events. split; [reflexivity |].
    apply each_request_in
      with (2 := call_events_requests _ _ _ Hshape [] eq_refl).
    now intros ? ? [-> _].
Qed.

(** The single-file branch of [transcribeAudio], taken when [chunks] is
    [undefined] or empty. *)
Lemma transcribeAudio_single (audioPath : string)
    (chunks : option (list AudioChunk)) (options : AudioOptions) (log : Log) :
  chunks = None \/ chunks = Some [] ->
  exists events result,
    transcribeAudioFile api audioPath (as_file_options options) log
      = (result, log ++ events) /\
    transcribeAudio api audioPath chunks options log
      = (match result with
         | inr out => inr {| transcript := out; chunksProcessed := 1 |}
         | inl error => inl error
         end, log ++ events) /\
    Forall (fun q => q = request_of audioPath (as_file_options options))
      (requests events) /\
    (List.length (requests events) <= 3)%nat.
Proof.
  intros Hchunks.
  destruct (transcribeAudioFile_events api audioPath (as_file_options options)
              log) as (events & result & Hrun & Hshape & Hcount).
  exists events, result. repeat split; try assumption.
  - assert (Hsingle :
      transcribeAudio api audioPath chunks options log
      = (transcript <- transcribeAudioFile api audioPath
                         (as_file_options options) ;;
         ret {| transcript := transcript; chunksProcessed := 1 |}) log)
      by (destruct Hchunks as [-> | ->]; reflexivity).
    rewrite Hsingle. unfold bind. rewrite Hrun. now destruct result.
  - apply Forall_forall.
    apply each_request_in
      with (2 := call_events_requests _ _ _ Hshape [] eq_refl).
    now intros ? ? [-> _].
Qed.

(** Every run of [transcribeChunks] is of one of three kinds: the
    call for every chunk succeeds and every notification returns; or
    there is a first chunk whose call fails; or there is a first
    notification on which the observer throws. *)
Lemma transcribeChunks_outcome (chunks : list AudioChunk)
    (options : ChunkOptions) (log : Log) :
  (exists outs prompt' log',
     calls_succeed api options (Z.of_nat (List.length chunks)) chunks 0
       (default "" (co_initialPrompt options)) log outs prompt' log' /\
     transcribeChunks api chunks options log
     = (inr {| transcript := join blank_line outs;
               chunksProcessed := Z.of_nat (List.length chunks) |}, log'))
  \/
  (exists before chunk after outs prompt log1 error log2,
     chunks = before ++ chunk :: after /\
     calls_succeed api options (Z.of_nat (List.length chunks)) before 0
       (default "" (co_initialPrompt options)) log outs prompt log1 /\
     transcribeAudioFile api (path chunk) (chunk_call_options options prompt)
       log1 = (inl error, log2) /\
     transcribeChunks api chunks options log = (inl error, log2))
  \/
  (exists before chunk after outs prompt log1 out log2 error log3,
     chunks = before ++ chunk :: after /\
     calls_succeed api options (Z.of_nat (List.length chunks)) before 0
       (default "" (co_initialPrompt options)) log outs prompt log1 /\
     transcribeAudioFile api (path chunk) (chunk_call_options options prompt)
       log1 = (inr out, log2) /\
     report_progress (co_onProgress options)
       (Z.of_nat (List.length before) + 1) (Z.of_nat (List.length chunks))
       log2 = (inl error, log3) /\
     transcribeChunks api chunks options log = (inl error, log3)).
Proof.
  rewrite transcribeChunks_run.
  destruct (chunk_loop_cases api options (Z.of_nat (List.length chunks))
              chunks 0 (default "" (co_initialPrompt options)) log)
    as [(outs & prompt' & log' & Hall)
       | [(before & chunk & after & outs & prompt & log1 & error & log2
           & Hsplit & Hbefore & Hfail)
         | (before & chunk & after & outs & prompt & log1 & out & log2
            & error & log3 & Hsplit & Hbefore & Hout & Hthrown)]].
  - left. exists outs, prompt', log'. split; [exact Hall |].
    now rewrite (chunk_loop_succeeds _ _ _ _ _ _ _ _ _ _ Hall []).
  - right. left.
    exists before, chunk, after, outs, prompt, log1, error, log2.
    repeat split; try assumption.
    rewrite Hsplit at 2.
    now rewrite (chunk_loop_fails _ _ _ _ _ _ _ _ _ _ Hbefore
                   chunk after error log2 [] Hfail).
  - right. right.
    exists before, chunk, after, outs, prompt, log1, out, log2, error, log3.
    repeat split; try assumption.
    rewrite Hsplit at 2.
    now rewrite (chunk_loop_observer_throws _ _ _ _ _ _ _ _ _ _ Hbefore
                   chunk after out log2 error log3 [] Hout Hthrown).
Qed.

(** C5. With no chunk list, [transcribeAudio] makes one call of
    [transcribeAudioFile] on the whole audio file and nothing else: its
    log is the log of that call, whose requests (one to three, by the
    retry policy) are all the request for [audioPath]; when the call
    returns an output, the result is that output with
    [chunksProcessed = 1]. *)
Theorem single_call_without_chunks (audioPath : string)
    (options : AudioOptions) (log : Log) :
  exists events result,
    transcribeAudioFile api audioPath (as_file_options options) log
      = (result, log ++ events) /\
    transcribeAudio api audioPath None options log
      = (match result with
         | inr out => inr {| transcript := out; chunksProcessed := 1 |}
         | inl error => inl error
         end, log ++ events) /\
    Forall (fun q => q = request_of audioPath (as_file_options options))
      (requests events) /\
    (List.length (requests events) <= 3)%nat.
Proof.
  apply transcribeAudio_single. now left.
Qed.

(** C10. With an empty chunk list [transcribeAudio] behaves as with no
    chunk list: one call of [transcribeAudioFile] on the whole audio file,
    whose output is returned with [chunksProcessed = 1]; whereas
    [transcribeChunks] on the empty list would return the empty
    transcript with [chunksProcessed = 0]. *)
Theorem empty_chunk_list_is_single_call (audioPath : string)
    (options : AudioOptions) (log : Log) :
  transcribeAudio api audioPath (Some []) options log
    = transcribeAudio api audioPath None options log /\
  (exists events result,
     transcribeAudioFile api audioPath (as_file_options options) log
       = (result, log ++ events) /\
     transcribeAudio api audioPath (Some []) options log
       = (match result with
          | inr out => inr {| transcript := out; chunksProcessed := 1 |}
          | inl error => inl error
          end, log ++ events)) /\
  transcribeChunks api [] (as_chunk_options options) log
    = (inr {| transcript := ""; chunksProcessed := 0 |}, log).
Proof.
  split; [reflexivity |]. split; [| reflexivity].
  destruct (transcribeAudio_single audioPath (Some []) options log)
    as (events & result & Hcall & Hrun & _); [now right |].
  now exists events, result.
Qed.

End Pipeline.

(** ** Retries, seen from the pipeline *)

Section Exhaustion.

Variable api : Log -> Request -> JsError + Transcription.

(** Two retriable failures in a row take the call to its third
    attempt, after sleeps of 1000 ms and 2000 ms. *)
Lemma two_failures (audioPath : string) (options : FileOptions) (log : Log)
    (e1 e2 : JsError) :
  retriable_signal e1 -> retriable_signal e2 ->
  api log (request_of audioPath options) = inl e1 ->
  api (after_failure log (request_of audioPath options) e1 1000)
    (request_of audioPath options) = inl e2 ->
  transcribeAudioFile api audioPath options log
  = attempting api (request_of audioPath options) 2 (Some e2)
      (after_failure
         (after_failure log (request_of audioPath options) e1 1000)
         (request_of audioPath options) e2 2000).
Proof.
  intros H1 H2 Hfail1 Hfail2.
  apply retries_signal in H1, H2.
  rewrite transcribeAudioFile_attempting.
  rewrite attempting_step, Hfail1, H1 by (cbn; lia).
  cbn [andb Z.ltb Z.add Z.compare maxRetries RETRY_CONFIG Pos.compare
       Pos.compare_cont Pos.add Pos.succ].
  change (getRetryDelay 0) with 1000. fold (after_failure log
    (request_of audioPath options) e1 1000).
  rewrite attempting_step, Hfail2, H2 by (cbn; lia).
  reflexivity.
Qed.

(** C7. When the service answers all three attempts of a call with a
    rate-limit signal, [transcribeAudioFile] fails once the retries are
    exhausted ([maxRetries = 3]: three requests, two sleeps) with the
    error of the third attempt, which carries the rate-limit status 429;
    and when that call is the call for a chunk of [transcribeChunks], the
    pipeline fails with the same error and its log ends with the third
    failed request, so that no later chunk is attempted. *)
Theorem rate_limited_on_every_attempt (audioPath : string)
    (options : FileOptions) (log : Log) (e1 e2 e3 : JsError) :
  rate_limit_signal e1 -> rate_limit_signal e2 -> rate_limit_signal e3 ->
  api log (request_of audioPath options) = inl e1 ->
  api (after_failure log (request_of audioPath options) e1 1000)
    (request_of audioPath options) = inl e2 ->
  api (after_failure
         (after_failure log (request_of audioPath options) e1 1000)
         (request_of audioPath options) e2 2000)
    (request_of audioPath options) = inl e3 ->
  maxRetries RETRY_CONFIG = 3 /\
  transcribeAudioFile api audioPath options log
  = (inl e3,
     after_failure
       (after_failure log (request_of audioPath options) e1 1000)
       (request_of audioPath options) e2 2000
     ++ [EvCreate (request_of audioPath options) (inl e3)]) /\
  status_of e3 = Some 429 /\
  forall chunk_options before chunk after log0 outs prompt,
    path chunk = audioPath ->
    chunk_call_options chunk_options prompt = options ->
    calls_succeed api chunk_options
      (Z.of_nat (List.length (before ++ chunk :: after))) before 0
      (default "" (co_initialPrompt chunk_options)) log0 outs prompt log ->
    transcribeChunks api (before ++ chunk :: after) chunk_options log0
    = (inl e3,
       after_failure
         (after_failure log (request_of audioPath options) e1 1000)
         (request_of audioPath options) e2 2000
       ++ [EvCreate (request_of audioPath options) (inl e3)]).
Proof.
  intros H1 H2 H3 Hfail1 Hfail2 Hfail3.
  assert (Hcall :
    transcribeAudioFile api audioPath options log
    = (inl e3,
       after_failure
         (after_failure log (request_of audioPath options) e1 1000)
         (request_of audioPath options) e2 2000
       ++ [EvCreate (request_of audioPath options) (inl e3)])).
  { rewrite (two_failures audioPath options log e1 e2) by
      (try assumption; now left).
    rewrite attempting_step, Hfail3 by (cbn; lia).
    now rewrite andb_false_r. }
  split; [reflexivity |]. split; [exact Hcall |]. split; [exact H3 |].
  intros chunk_options before chunk after log0 outs prompt <- <- Hbefore.
  rewrite transcribeChunks_run.
  now rewrite (chunk_loop_fails _ _ _ _ _ _ _ _ _ _ Hbefore
                 chunk after e3 _ [] Hcall).
Qed.

End Exhaustion.

(** C8. A call whose first two attempts are answered with a rate-limit
    signal and whose third attempt is answered with a transcription
    returns the same output string as a call answered with that
    transcription at once; the retried call has slept 1000 ms and then
    2000 ms before its third request. *)
Theorem retried_call_same_output
    (retried direct : Log -> Request -> JsError + Transcription)
    (audioPath : string) (options : FileOptions) (log log' : Log)
    (e1 e2 : JsError) (t : Transcription) :
  rate_limit_signal e1 -> rate_limit_signal e2 ->
  retried log (request_of audioPath options) = inl e1 ->
  retried (after_failure log (request_of audioPath options) e1 1000)
    (request_of audioPath options) = inl e2 ->
  retried (after_failure
             (after_failure log (request_of audioPath options) e1 1000)
             (request_of audioPath options) e2 2000)
    (request_of audioPath options) = inr t ->
  direct log' (request_of audioPath options) = inr t ->
  fst (transcribeAudioFile retried audioPath options log)
    = fst (transcribeAudioFile direct audioPath options log') /\
  transcribeAudioFile retried audioPath options log
    = (inr (text_of t),
       log ++ [EvCreate (request_of audioPath options) (inl e1); EvSleep 1000;
               EvCreate (request_of audioPath options) (inl e2); EvSleep 2000;
               EvCreate (request_of audioPath options) (inr t)]) /\
  transcribeAudioFile direct audioPath options log'
    = (inr (text_of t),
       log' ++ [EvCreate (request_of audioPath options) (inr t)]).
Proof.
  intros H1 H2 Hfail1 Hfail2 Hok Hdirect.
  assert (Hretried :
    transcribeAudioFile retried audioPath options log
    = (inr (text_of t),
       log ++ [EvCreate (request_of audioPath options) (inl e1); EvSleep 1000;
               EvCreate (request_of audioPath options) (inl e2); EvSleep 2000;
               EvCreate (request_of audioPath options) (inr t)])).
  { rewrite (two_failures retried audioPath options log e1 e2)
      by (try assumption; now left).
    rewrite attempting_step, Hok by (cbn; lia).
    unfold after_failure. now rewrite <- !app_assoc. }
  assert (Hat_once :
    transcribeAudioFile direct audioPath options log'
    = (inr (text_of t),
       log' ++ [EvCreate (request_of audioPath options) (inr t)])).
  { rewrite transcribeAudioFile_attempting.
    now rewrite attempting_step, Hdirect by (cbn; lia). }
  rewrite Hretried, Hat_once. auto.
Qed.

(** ** The length of the prompt *)

Section PromptLength.

Variable api : Log -> Request -> JsError + Transcription.

(** C9, as amended.  The prompt of every request for a chunk after the
    first is at most 1500 characters long; the request for the first chunk
    carries the initial hint as it was given, so its prompt is at most
    1500 characters long when the initial hint is. *)
Theorem prompt_bounded_after_first_chunk (chunks : list AudioChunk)
    (options : ChunkOptions) (log : Log) :
  exists events result,
    transcribeChunks api chunks options log = (result, log ++ events) /\
    forall before q o after p,
      events = before ++ EvCreate q o :: after ->
      req_prompt q = Some p ->
      (String.length (default "" (co_initialPrompt options)) <= 1500)%nat
      \/ outputs before <> [] ->
      (String.length p <= 1500)%nat.
Proof.
  destruct (transcribeChunks_requests api chunks options log)
    as (events & result & Hrun & Hrequests).
  exists events, result. split; [exact Hrun |].
  intros before q o after p Hsplit Hprompt Hbound.
  destruct (each_request_at _ _ [] before q o after Hrequests Hsplit)
    as (chunk & _ & ->).
  cbn in Hprompt. apply or_undefined_some in Hprompt. subst p.
  now apply prompt_after_bounded.
Qed.

(** Through [transcribeAudio], a prompt that passed the request schema of
    the API route gives requests whose prompts are all within the
    bound, with or without chunks. *)
Remark validated_prompt_bounded (audioPath : string)
    (chunks : option (list AudioChunk)) (options : AudioOptions) (log : Log) :
  prompt_schema (ao_prompt options) = true ->
  exists events result,
    transcribeAudio api audioPath chunks options log
      = (result, log ++ events) /\
    forall q p, In q (requests events) -> req_prompt q = Some p ->
      (String.length p <= 1500)%nat.
Proof.
  intros Hschema.
  assert (Hsingle : chunks = None \/ chunks = Some [] ->
    exists events result,
      transcribeAudio api audioPath chunks options log
        = (result, log ++ events) /\
      forall q p, In q (requests events) -> req_prompt q = Some p ->
        (String.length p <= 1500)%nat).
  { intros Hchunks.
    destruct (transcribeAudio_single api audioPath chunks options log Hchunks)
      as (events & result & _ & Hrun & Hall & _).
    eexists events, _. split; [exact Hrun |].
    intros q p Hin Hprompt. rewrite Forall_forall in Hall.
    rewrite (Hall q Hin) in Hprompt. cbn in Hprompt.
    rewrite Hprompt in Hschema. now apply Nat.leb_le in Hschema. }
  destruct chunks as [[| chunk chunks] |]; [now apply Hsingle; right | | now apply Hsingle; left].
  destruct (transcribeChunks_requests api (chunk :: chunks)
              (as_chunk_options options) log)
    as (events & result & Hrun & Hrequests).
  exists events, result. split; [exact Hrun |].
  intros q p Hin Hprompt. revert p Hprompt.
  apply each_request_in
    with (Q := fun q => forall p, req_prompt q = Some p ->
                 (String.length p <= 1500)%nat)
         (2 := Hrequests) (3 := Hin).
  intros before q' (c & _ & ->) p Hprompt.
  cbn in Hprompt. apply or_undefined_some in Hprompt. subst p.
  apply prompt_after_bounded. left. cbn. lia.
Qed.

(** The chunked branch of [transcribeAudio] does not read the [prompt]
    of its options: [transcribeChunks] looks for [initialPrompt]. *)
Remark transcribeAudio_chunks_ignore_prompt (audioPath : string)
    (chunk : AudioChunk) (chunks : list AudioChunk)
    (model : option WhisperModel) (language prompt1 prompt2 : option string)
    (responseFormat : option ResponseFormat) (onProgress : option Observer) :
  transcribeAudio api audioPath (Some (chunk :: chunks))
    (mkAudioOptions model language prompt1 responseFormat onProgress)
  = transcribeAudio api audioPath (Some (chunk :: chunks))
      (mkAudioOptions model language prompt2 responseFormat onProgress).
Proof. reflexivity. Qed.

End PromptLength.

(** ** The statistics of a transcript *)

Section Statistics.

Lemma length_positive (word : string) :
  (Z.of_nat (String.length word) >? 0)
  = match word with EmptyString => false | _ => true end.
Proof.
  destruct word; reflexivity.
Qed.

Lemma append_nonempty (piece : string) (c : ascii) :
  exists c' rest, (piece ++ String c "")%string = String c' rest.
Proof.
  destruct piece; cbn; eauto.
Qed.

(** The pieces of the split that are not empty are the words. *)
Lemma split_whitespace_words (s : string) :
  forall (piece : string) (in_run : bool),
    (in_run = true -> piece = "") ->
    List.length
      (filter (fun word => Z.of_nat (String.length word) >? 0)
         (split_whitespace_from s piece in_run))
    = (word_runs s (match piece with EmptyString => false | _ => true end)
       + match piece with EmptyString => 0 | _ => 1 end)%nat.
Proof.
  induction s as [| c s IH]; intros piece in_run Hrun;
    cbn [split_whitespace_from word_runs].
  - cbn [filter]. rewrite length_positive. now destruct piece.
  - destruct (is_whitespace c).
    + destruct in_run.
      * rewrite (Hrun eq_refl). now rewrite IH.
      * cbn [filter]. rewrite length_positive.
        destruct piece; cbn [List.length]; rewrite IH by reflexivity; lia.
    + rewrite IH by discriminate.
      destruct (append_nonempty piece c) as (c' & rest & ->).
      destruct piece; lia.
Qed.

Lemma word_runs_trimStart (s : string) :
  word_runs (trimStart s) false = word_runs s false.
Proof.
  induction s as [| c s IH]; cbn; [reflexivity |].
  destruct (is_whitespace c) eqn:Hc; [exact IH |].
  cbn. now rewrite Hc.
Qed.

Lemma word_runs_trimEnd (s : string) :
  forall in_word, word_runs (trimEnd s) in_word = word_runs s in_word.
Proof.
  induction s as [| c s IH]; intros in_word; cbn [trimEnd]; [reflexivity |].
  destruct (trimEnd s) as [| c' rest] eqn:Htrim.
  - destruct (is_whitespace c) eqn:Hc; cbn [word_runs]; rewrite Hc.
    + now rewrite <- IH.
    + now rewrite <- IH.
  - cbn [word_runs]. destruct (is_whitespace c); now rewrite <- !IH.
Qed.

Lemma countWords_word_runs (text : string) :
  countWords text = Z.of_nat (word_runs text false).
Proof.
  unfold countWords, split_whitespace, trim.
  rewrite split_whitespace_words by discriminate.
  now rewrite Nat.add_0_r, word_runs_trimEnd, word_runs_trimStart.
Qed.

(** X1. [countWords] counts the words of the text, a word being a
    maximal run of characters that are not white space: white space at
    either end and repeated separators make no difference. *)
Theorem countWords_counts_words (text : string) :
  countWords text = Z.of_nat (word_runs text false).
Proof. apply countWords_word_runs. Qed.

Lemma countCharacters_visible (text : string) :
  countCharacters text = Z.of_nat (visible_characters text).
Proof.
  unfold countCharacters. f_equal.
  induction text as [| c text IH]; cbn; [reflexivity |].
  destruct (is_whitespace c); cbn; now rewrite IH.
Qed.

Lemma word_runs_separator (a b : string) (c : ascii) :
  is_whitespace c = true ->
  forall in_word,
    word_runs (a ++ String c b) in_word
    = (word_runs a in_word + word_runs b false)%nat.
Proof.
  intros Hc. induction a as [| x a IH]; intros in_word; cbn.
  - now rewrite Hc.
  - destruct (is_whitespace x); rewrite IH; lia.
Qed.

Lemma word_runs_leading_whitespace (b : string) (c : ascii) :
  is_whitespace c = true ->
  forall in_word, word_runs (String c b) in_word = word_runs b false.
Proof.
  intros Hc in_word. cbn. now rewrite Hc.
Qed.

Lemma visible_characters_app (a b : string) :
  visible_characters (a ++ b)
  = (visible_characters a + visible_characters b)%nat.
Proof.
  induction a as [| x a IH]; cbn; [reflexivity | rewrite IH; lia].
Qed.

Lemma join_statistics (outs : list string) :
  countWords (join blank_line outs) = total (map countWords outs) /\
  countCharacters (join blank_line outs) = total (map countCharacters outs).
Proof.
  split.
  - induction outs as [| out [| next outs] IH].
    + reflexivity.
    + cbn. lia.
    + change (join blank_line (out :: next :: outs))
        with (out ++ String (ascii_of_nat 10)
                       (String (ascii_of_nat 10)
                          (join blank_line (next :: outs))))%string.
      change (total (map countWords (out :: next :: outs)))
        with (countWords out + total (map countWords (next :: outs))).
      rewrite <- IH, !countWords_word_runs.
      rewrite word_runs_separator by reflexivity.
      rewrite word_runs_leading_whitespace by reflexivity. lia.
  - induction outs as [| out [| next outs] IH].
    + reflexivity.
    + cbn. lia.
    + change (join blank_line (out :: next :: outs))
        with (out ++ String (ascii_of_nat 10)
                       (String (ascii_of_nat 10)
                          (join blank_line (next :: outs))))%string.
      change (total (map countCharacters (out :: next :: outs)))
        with (countCharacters out
              + total (map countCharacters (next :: outs))).
      rewrite <- IH, !countCharacters_visible, visible_characters_app.
      cbn [visible_characters].
      change (is_whitespace (ascii_of_nat 10)) with true.
      cbn [Nat.add]. lia.
Qed.

(** X2. The statistics of a transcript combined by [join] with the
    blank-line separator are the sums of the statistics of the parts:
    a word never spans two chunk outputs, and the separators add no
    character to the count. *)
Theorem statistics_of_joined_transcript (outs : list string) :
  countWords (join blank_line outs) = total (map countWords outs) /\
  countCharacters (join blank_line outs) = total (map countCharacters outs).
Proof. apply join_statistics. Qed.

Lemma word_runs_bound (s : string) :
  forall in_word, (word_runs s in_word <= visible_characters s)%nat.
Proof.
  induction s as [| c s IH]; intros in_word; cbn; [lia |].
  destruct (is_whitespace c).
  - specialize (IH false). lia.
  - specialize (IH true). destruct in_word; lia.
Qed.

Lemma visible_characters_bound (s : string) :
  (visible_characters s <= String.length s)%nat.
Proof.
  induction s as [| c s IH]; cbn; [lia |].
  destruct (is_whitespace c); lia.
Qed.

Lemma no_word_no_character (s : string) :
  word_runs s false = 0%nat -> visible_characters s = 0%nat.
Proof.
  induction s as [| c s IH]; cbn; [reflexivity |].
  destruct (is_whitespace c); [exact IH | discriminate].
Qed.

(** X3. A text has at least one character per word and at most as many
    counted characters as its length; it has no word exactly when it has
    no counted character, which is the case of the empty text and of a
    text of white space only. *)
Theorem words_and_characters (text : string) :
  0 <= countWords text <= countCharacters text /\
  countCharacters text <= Z.of_nat (String.length text) /\
  (countWords text = 0 <-> countCharacters text = 0) /\
  (countCharacters text = 0 <->
   forall c rest front, text = (front ++ String c rest)%string ->
     is_whitespace c = true).
Proof.
  rewrite countWords_word_runs, countCharacters_visible.
  pose proof (word_runs_bound text false) as Hwords.
  pose proof (visible_characters_bound text) as Hchars.
  pose proof (no_word_no_character text) as Hnone.
  repeat split; try lia.
  - intros Hzero c rest front ->.
    rewrite visible_characters_app in Hzero. cbn in Hzero.
    destruct (is_whitespace c); [reflexivity | lia].
  - intros Hall. apply (inj_eq _ 0%nat).
    induction text as [| c text IH]; cbn; [reflexivity |].
    rewrite (Hall c text "" eq_refl). cbn.
    apply IH.
    + apply word_runs_bound.
    + apply visible_characters_bound.
    + apply no_word_no_character.
    + intros c' rest front ->.
      apply (Hall c' rest (String c front)). reflexivity.
Qed.

End Statistics.

(** ** Bounds on one call, and what a run leaves in the log *)

Section RunFacts.

Variable api : Log -> Request -> JsError + Transcription.

Lemma sleeps_app (a b : Log) : sleeps (a ++ b) = sleeps a ++ sleeps b.
Proof.
  induction a as [| [q o | ms | c t] a IH]; cbn; congruence.
Qed.

Lemma progress_reports_app (a b : Log) :
  progress_reports (a ++ b) = progress_reports a ++ progress_reports b.
Proof.
  induction a as [| [q o | ms | c t] a IH]; cbn; congruence.
Qed.

Lemma call_events_no_progress (request : Request) (events : Log)
    (result : JsError + string) :
  call_events request events result -> progress_reports events = [].
Proof.
  induction 1; cbn; auto.
Qed.

(** From [Attempting(n)] on, a call makes at most [maxRetries - n]
    requests, sleeps the back-off delay between two requests and at no
    other time, and ends with the outcome of its last request. *)
Lemma attempting_bounds (request : Request) (left : nat) :
  (left <= 2)%nat ->
  forall (lastError : option JsError) (log : Log),
  exists events result k,
    attempting api request (2 - Z.of_nat left) lastError log
      = (result, log ++ events) /\
    (k <= left)%nat /\
    requests events = repeat request (S k) /\
    sleeps events = delays_from (2 - Z.of_nat left) k /\
    exists front outcome,
      events = front ++ [EvCreate request outcome] /\
      result = match outcome with
               | inl error => inl error
               | inr t => inr (text_of t)
               end.
Proof.
  induction left as [| left IH]; intros Hleft lastError log;
    rewrite attempting_step
      by (change (maxRetries RETRY_CONFIG) with 3; lia);
    destruct (api log request) as [error | t] eqn:Houtcome.
  - rewrite andb_false_r.
    exists [EvCreate request (inl error)], (inl error), 0%nat.
    repeat split; try reflexivity; try lia.
    now exists [], (inl error).
  - exists [EvCreate request (inr t)], (inr (text_of t)), 0%nat.
    repeat split; try reflexivity; try lia.
    now exists [], (inr t).
  - destruct ((is_rate_limit error || isRetriable error)
              && (2 - Z.of_nat (S left) + 1 <? maxRetries RETRY_CONFIG)).
    + replace (2 - Z.of_nat (S left) + 1) with (2 - Z.of_nat left) by lia.
      destruct (IH ltac:(lia) (Some error)
                  (log ++ [EvCreate request (inl error);
                           EvSleep (getRetryDelay (2 - Z.of_nat (S left)))]))
        as (events & result & k & Hrun & Hk & Hrequests & Hsleeps
            & front & outcome & Hlast & Hresult).
      exists (EvCreate request (inl error)
                :: EvSleep (getRetryDelay (2 - Z.of_nat (S left))) :: events),
        result, (S k).
      split; [rewrite Hrun; now rewrite <- app_assoc |].
      split; [lia |].
      split; [cbn; now rewrite Hrequests |].
      split.
      * cbn [sleeps delays_from]. rewrite Hsleeps.
        now replace (2 - Z.of_nat (S left) + 1) with (2 - Z.of_nat left) by lia.
      * exists (EvCreate request (inl error)
                  :: EvSleep (getRetryDelay (2 - Z.of_nat (S left))) :: front),
          outcome.
        split; [now rewrite Hlast | exact Hresult].
    + exists [EvCreate request (inl error)], (inl error), 0%nat.
      repeat split; try reflexivity; try lia.
      now exists [], (inl error).
  - exists [EvCreate request (inr t)], (inr (text_of t)), 0%nat.
    repeat split; try reflexivity; try lia.
    now exists [], (inr t).
Qed.

(** X4. One call of [transcribeAudioFile], whatever the service does,
    sends between one and three requests, all the same; it sleeps
    between two requests and at no other time, 1000 ms and then 2000 ms,
    so at most 3000 ms in all; and it ends with the outcome of its last
    request: the text of that response, or the very error of that
    request.  Its events are failed requests each followed by a sleep,
    then the last request.  The error built after the loop is never
    thrown. *)
Theorem one_call_bounds (audioPath : string) (options : FileOptions)
    (log : Log) :
  exists events result k,
    transcribeAudioFile api audioPath options log = (result, log ++ events) /\
    (k <= 2)%nat /\
    requests events = repeat (request_of audioPath options) (S k) /\
    sleeps events = firstn k [1000; 2000] /\
    fold_right Z.add 0 (sleeps events) <= 3000 /\
    call_events (request_of audioPath options) events result /\
    exists front outcome,
      events = front ++ [EvCreate (request_of audioPath options) outcome] /\
      result = match outcome with
               | inl error => inl error
               | inr t => inr (text_of t)
               end.
Proof.
  destruct (attempting_bounds (request_of audioPath options) 2 (le_n 2)
              None log)
    as (events & result & k & Hrun & Hk & Hrequests & Hsleeps & Hlast).
  assert (Hshape : call_events (request_of audioPath options) events result).
  { destruct (transcribeAudioFile_events api audioPath options log)
      as (events' & result' & Hrun' & Hshape & _).
    rewrite transcribeAudioFile_attempting in Hrun'.
    change (2 - Z.of_nat 2) with 0 in Hrun. rewrite Hrun in Hrun'.
    injection Hrun' as -> Hlog. apply app_inv_head in Hlog. now subst. }
  exists events, result, k.
  assert (Hdelays : delays_from 0 k = firstn k [1000; 2000])
    by (destruct k as [| [| [| k]]]; try reflexivity; lia).
  change (2 - Z.of_nat 2) with 0 in Hrun, Hsleeps.
  rewrite Hdelays in Hsleeps.
  repeat split; try assumption.
  rewrite Hsleeps.
  destruct k as [| [| [| k]]]; cbn; lia.
Qed.

(** The transcripts the loop returns are the successful responses it
    logged, one for each chunk; and it has notified the observer once
    for each output received. *)
Lemma chunk_loop_outputs (options : ChunkOptions) (total : Z)
    (chunks : list AudioChunk) :
  forall (i : Z) (transcripts : list string) (prompt : string) (log : Log),
  exists events result,
    chunk_loop api options total chunks i transcripts prompt log
      = (result, log ++ events) /\
    (List.length (outputs events) <= List.length chunks)%nat /\
    progress_reports events
      = match co_onProgress options with
        | Some _ => reports_from (i + 1) total (List.length (outputs events))
        | None => []
        end /\
    match result with
    | inr all =>
        all = transcripts ++ outputs events /\
        List.length (outputs events) = List.length chunks
    | inl _ =>
        co_onProgress options = None ->
        (List.length (outputs events) < List.length chunks)%nat
    end.
Proof.
  induction chunks as [| chunk chunks IH]; intros i transcripts prompt log.
  - exists [], (inr transcripts). cbn. rewrite !app_nil_r.
    repeat split; try lia. now destruct (co_onProgress options).
  - cbn [chunk_loop]. unfold bind at 1.
    destruct (transcribeAudioFile_events api (path chunk)
                (chunk_call_options options prompt) log)
      as (events1 & result1 & Hcall & Hshape & _).
    rewrite Hcall.
    pose proof (call_events_outputs _ _ _ Hshape) as Houts.
    pose proof (call_events_no_progress _ _ _ Hshape) as Hquiet.
    destruct result1 as [error | out].
    + exists events1, (inl error). rewrite Houts, Hquiet. cbn.
      repeat split; try lia. now destruct (co_onProgress options).
    + unfold bind at 1. rewrite report_progress_run.
      set (events2 := progress_events (co_onProgress options) (i + 1) total).
      assert (Houts2 : outputs events2 = [])
        by apply progress_events_quiet.
      assert (Hreports2 :
        progress_reports events2
        = match co_onProgress options with
          | Some _ => [(i + 1, total)]
          | None => []
          end)
        by (unfold events2; now destruct (co_onProgress options)).
      destruct (notification (co_onProgress options) (log ++ events1) (i + 1)
                  total) as [thrown | []] eqn:Hnotified.
      * exists (events1 ++ events2), (inl thrown).
        rewrite !outputs_app, !progress_reports_app, Houts, Houts2, Hquiet,
          Hreports2.
        cbn [app List.length].
        split; [now rewrite <- app_assoc |].
        split; [lia |].
        split; [now destruct (co_onProgress options) |].
        intros Hnone. rewrite Hnone in Hnotified. discriminate Hnotified.
      * destruct (IH (i + 1) (transcripts ++ [out]) (next_rollingPrompt out)
                    ((log ++ events1) ++ events2))
          as (events3 & result & Hrest & Hcount & Hreports & Hresult).
        exists (events1 ++ events2 ++ events3), result.
        rewrite !outputs_app, !progress_reports_app, Houts, Houts2, Hquiet,
          Hreports2, Hreports.
        cbn [app List.length].
        split; [rewrite Hrest; now rewrite <- !app_assoc |].
        split; [lia |].
        split; [now destruct (co_onProgress options) |].
        destruct result as [error | all].
        -- intros Hnone. specialize (Hresult Hnone). lia.
        -- destruct Hresult as [-> Hlen]. rewrite <- app_assoc. cbn. auto.
Qed.

Lemma transcribeAudio_outputs (audioPath : string)
    (chunks : option (list AudioChunk)) (options : AudioOptions)
    (log log' : Log) (result : ChunksResult) :
  transcribeAudio api audioPath chunks options log = (inr result, log') ->
  exists events,
    log' = log ++ events /\
    transcript result = join blank_line (outputs events) /\
    chunksProcessed result = Z.of_nat (List.length (outputs events)) /\
    1 <= chunksProcessed result.
Proof.
  intros Hrun.
  assert (Hsingle : chunks = None \/ chunks = Some [] ->
    exists events,
      log' = log ++ events /\
      transcript result = join blank_line (outputs events) /\
      chunksProcessed result = Z.of_nat (List.length (outputs events)) /\
      1 <= chunksProcessed result).
  { intros Hchunks.
    assert (Hbranch :
      transcribeAudio api audioPath chunks options log
      = (out <- transcribeAudioFile api audioPath (as_file_options options) ;;
         ret {| transcript := out; chunksProcessed := 1 |}) log)
      by (destruct Hchunks as [-> | ->]; reflexivity).
    rewrite Hbranch in Hrun. unfold bind in Hrun.
    destruct (transcribeAudioFile_events api audioPath
                (as_file_options options) log)
      as (events & r & Hcall & Hshape & _).
    rewrite Hcall in Hrun.
    pose proof (call_events_outputs _ _ _ Hshape) as Houts.
    destruct r as [error | out]; [discriminate |].
    injection Hrun as <- <-.
    exists events. rewrite Houts. cbn. repeat split; lia. }
  destruct chunks as [[| chunk chunks] |];
    [apply Hsingle; now right | | apply Hsingle; now left].
  change (transcribeAudio api audioPath (Some (chunk :: chunks)) options log)
    with (transcribeChunks api (chunk :: chunks) (as_chunk_options options) log)
    in Hrun.
  rewrite transcribeChunks_run in Hrun.
  destruct (chunk_loop_outputs (as_chunk_options options)
              (Z.of_nat (List.length (chunk :: chunks))) (chunk :: chunks)
              0 [] (default "" (co_initialPrompt (as_chunk_options options)))
              log)
    as (events & r & Hloop & _ & _ & Hresult).
  rewrite Hloop in Hrun.
  destruct r as [error | all]; [discriminate |].
  destruct Hresult as [-> Hlen]. injection Hrun as <- <-.
  exists events. cbn [transcript chunksProcessed app].
  rewrite Hlen. cbn [List.length]. repeat split; lia.
Qed.

(** X5. What [transcribeAudio] returns is what the service answered:
    the transcript is the texts of the successful responses, in the
    order received, joined by blank lines, and [chunksProcessed] is
    their number, which is at least 1. *)
Theorem transcript_is_the_logged_outputs (audioPath : string)
    (chunks : option (list AudioChunk)) (options : AudioOptions)
    (log log' : Log) (result : ChunksResult) :
  transcribeAudio api audioPath chunks options log = (inr result, log') ->
  exists events,
    log' = log ++ events /\
    transcript result = join blank_line (outputs events) /\
    chunksProcessed result = Z.of_nat (List.length (outputs events)) /\
    1 <= chunksProcessed result.
Proof. apply transcribeAudio_outputs. Qed.

(** Which files [transcribeAudio] sends: the chunks when there are
    some, the whole audio file otherwise. *)
Lemma transcribeAudio_files (audioPath : string)
    (chunks : option (list AudioChunk)) (options : AudioOptions) (log : Log) :
  exists events result,
    transcribeAudio api audioPath chunks options log = (result, log ++ events)
    /\
    forall q, In q (requests events) ->
      match chunks with
      | Some (chunk :: rest) =>
          exists c, In c (chunk :: rest) /\ req_file q = path c
      | _ => req_file q = audioPath
      end.
Proof.
  assert (Hsingle : chunks = None \/ chunks = Some [] ->
    exists events result,
      transcribeAudio api audioPath chunks options log
        = (result, log ++ events) /\
      forall q, In q (requests events) -> req_file q = audioPath).
  { intros Hchunks.
    destruct (transcribeAudio_single api audioPath chunks options log Hchunks)
      as (events & result & _ & Hrun & Hall & _).
    eexists events, _. split; [exact Hrun |].
    intros q Hin. rewrite Forall_forall in Hall. now rewrite (Hall q Hin). }
  destruct chunks as [[| chunk chunks] |];
    [apply Hsingle; now right | | apply Hsingle; now left].
  destruct (transcribeChunks_requests api (chunk :: chunks)
              (as_chunk_options options) log)
    as (events & result & Hrun & Hrequests).
  exists events, result. split; [exact Hrun |].
  intros q Hin. revert q Hin.
  apply each_request_in with (2 := Hrequests).
  intros before q (c & Hnth & ->).
  exists c. split; [now apply nth_error_In in Hnth | reflexivity].
Qed.

(** X6. [transcribeChunks] notifies the observer once for each chunk
    it has transcribed, in order, with [(1, n)], [(2, n)], ... where [n]
    is the number of chunks: as many notifications as outputs received,
    also when a later chunk fails or when the observer throws; and none
    when no observer is given.  A result is returned only when all [n]
    outputs were received, and, when no observer is given, exactly
    then. *)
Theorem progress_is_reported_in_order (chunks : list AudioChunk)
    (options : ChunkOptions) (log : Log) :
  exists events result,
    transcribeChunks api chunks options log = (result, log ++ events) /\
    (List.length (outputs events) <= List.length chunks)%nat /\
    progress_reports events
      = match co_onProgress options with
        | Some _ =>
            reports_from 1 (Z.of_nat (List.length chunks))
              (List.length (outputs events))
        | None => []
        end /\
    ((exists value, result = inr value) ->
     List.length (outputs events) = List.length chunks) /\
    (co_onProgress options = None ->
     List.length (outputs events) = List.length chunks ->
     exists value, result = inr value).
Proof.
  destruct (chunk_loop_outputs options (Z.of_nat (List.length chunks)) chunks
              0 [] (default "" (co_initialPrompt options)) log)
    as (events & r & Hloop & Hcount & Hreports & Hresult).
  exists events.
  exists (match r with
          | inr transcripts =>
              inr {| transcript := join blank_line transcripts;
                     chunksProcessed := Z.of_nat (List.length chunks) |}
          | inl error => inl error
          end).
  split; [rewrite transcribeChunks_run, Hloop; now destruct r |].
  split; [exact Hcount |]. split; [exact Hreports |].
  destruct r as [error | all].
  - split; [intros [value Hvalue]; discriminate |].
    intros Hnone Hall. specialize (Hresult Hnone). lia.
  - destruct Hresult as [_ Hlen]. split; [auto | eauto].
Qed.

(** X7. With a chunk list that is not empty, [transcribeAudio] ignores
    the [prompt] of its options: the outcome is the same whatever the
    prompt, the first chunk is requested without a prompt, and every
    request is for one of the chunks, never for the whole audio
    file. *)
Theorem chunked_run_ignores_prompt (audioPath : string) (chunk : AudioChunk)
    (chunks : list AudioChunk) (options : AudioOptions) (log : Log) :
  (forall prompt,
     transcribeAudio api audioPath (Some (chunk :: chunks))
       {| ao_model := ao_model options;
          ao_language := ao_language options;
          ao_prompt := prompt;
          ao_responseFormat := ao_responseFormat options;
          ao_onProgress := ao_onProgress options |} log
     = transcribeAudio api audioPath (Some (chunk :: chunks)) options log) /\
  exists events result,
    transcribeAudio api audioPath (Some (chunk :: chunks)) options log
      = (result, log ++ events) /\
    forall before q o after,
      events = before ++ EvCreate q o :: after ->
      (exists c, In c (chunk :: chunks) /\ req_file q = path c) /\
      (outputs before = [] ->
       req_file q = path chunk /\ req_prompt q = None).
Proof.
  split; [reflexivity |].
  destruct (transcribeChunks_requests api (chunk :: chunks)
              (as_chunk_options options) log)
    as (events & result & Hrun & Hrequests).
  exists events, result. split; [exact Hrun |].
  intros before q o after Hsplit.
  destruct (each_request_at _ _ [] before q o after Hrequests Hsplit)
    as (c & Hnth & ->).
  cbn [app] in *. split.
  - exists c. split; [now apply nth_error_In in Hnth | reflexivity].
  - intros Hnone. rewrite Hnone in Hnth. cbn in Hnth.
    injection Hnth as <-. now rewrite Hnone.
Qed.

End RunFacts.

(** ** The configuration is read once *)

Section ClientFacts.

Variable Config : Type.

Lemma getAppConfig_calls_cached (config : Config)
    (environment : list (JsError + Config)) :
  getAppConfig_calls Config environment (Some config)
  = (repeat (inr config) (List.length environment), Some config).
Proof.
  induction environment as [| parsed later IH]; cbn; [reflexivity |].
  now rewrite IH.
Qed.

(** X8. Over any series of calls of [getAppConfig], in an environment
    that may change between them: as long as reading the environment
    fails, each call throws the same fixed error and caches nothing;
    the first configuration read is cached, and every later call
    returns it, whatever the environment has become. *)
Theorem getAppConfig_reads_once (failed : list (JsError + Config))
    (config : Config) (later : list (JsError + Config)) :
  (forall parsed, In parsed failed -> exists error, parsed = inl error) ->
  getAppConfig_calls Config (failed ++ inr config :: later) None
  = (map (fun _ =>
            inl (new_Error
                   "Missing or invalid environment variables. Please check your .env file."))
       failed
     ++ repeat (inr config) (S (List.length later)),
     Some config) /\
  getAppConfig_calls Config failed None
  = (map (fun _ =>
            inl (new_Error
                   "Missing or invalid environment variables. Please check your .env file."))
       failed,
     None).
Proof.
  induction failed as [| parsed failed IH]; intros Hfailed.
  - cbn. now rewrite getAppConfig_calls_cached.
  - destruct (Hfailed parsed (or_introl eq_refl)) as [error ->].
    destruct IH as [IH1 IH2]; [intros p Hp; apply Hfailed; now right |].
    cbn [app getAppConfig_calls getAppConfig map].
    now rewrite IH1, IH2.
Qed.

End ClientFacts.

(** ** The route [POST /api/transcribe] *)

Section Route.

(** Case analysis on every outcome the handler branches on. *)
Ltac route_cases :=
  try unfold POST; unfold try_block, transcribe_video, processVideo, rbind, external,
    lift, rret, rthrow, assign_tempDir;
  cbn [fst snd rs_log rs_steps rs_tempDir];
  repeat match goal with
         | |- context [match ?x with _ => _ end] =>
             lazymatch x with
             | context [match _ with _ => _ end] => fail
             | _ =>
                 destruct x eqn:?;
                 cbn [fst snd rs_log rs_steps rs_tempDir negb]
             end
         end.

Lemma error_response_status (error : JsError) :
  (resp_status (error_response error) = 500 \/
   resp_status (error_response error) = 429) /\
  exists message details,
    resp_body (error_response error) = ResponseError message details.
Proof.
  unfold error_response.
  destruct (status_is error 401), (status_is error 429); cbn; eauto.
Qed.

(** X9. A response with status 400 is given only on validation: the
    handler has then checked for ffmpeg and parsed the form, and nothing
    else; no temporary directory exists and no request was sent to
    the speech service.  When ffmpeg is not available the handler
    answers 500 without even parsing the form. *)
Theorem bad_request_has_no_effect (env : Environment) (log : Log) :
  (resp_status (fst (POST env log)) = 400 ->
   rs_steps (snd (POST env log)) = [StepCheckFfmpeg; StepFormData] /\
   rs_log (snd (POST env log)) = log) /\
  (env_checkFfmpegAvailable env = false ->
   resp_status (fst (POST env log)) = 500 /\
   rs_steps (snd (POST env log)) = [StepCheckFfmpeg] /\
   rs_log (snd (POST env log)) = log).
Proof.
  split.
  - route_cases; cbn; intros Hstatus; try discriminate; auto;
      match goal with
      | H : resp_status (error_response ?e) = 400 |- _ =>
          destruct (error_response_status e) as [[Hs | Hs] _];
          rewrite Hs in H; discriminate
      | _ => idtac
      end.
  - intros Hffmpeg. unfold POST, try_block, rbind, external, rret.
    cbn. rewrite Hffmpeg. cbn. auto.
Qed.

(** *** The temporary directory *)

Lemma try_block_steps (env : Environment) (log : Log) :
  (forall d,
     ~ In (StepCleanupTempDir d)
         (rs_steps
            (snd (try_block env
                    {| rs_log := log; rs_steps := []; rs_tempDir := None |}))))
  /\
  (forall d,
     rs_tempDir
       (snd (try_block env
               {| rs_log := log; rs_steps := []; rs_tempDir := None |}))
     = Some d <->
     In (StepCreateTempDir (inr d))
       (rs_steps
          (snd (try_block env
                  {| rs_log := log; rs_steps := []; rs_tempDir := None |})))).
Proof.
  route_cases;
    (split;
     [ intros d Hin; cbn in Hin;
       repeat (destruct Hin as [Hin | Hin]; try discriminate Hin);
       contradiction
     | intros d; cbn; split;
       [ intros Hd; try discriminate Hd; injection Hd as <-; auto 10
       | intros Hin;
         repeat (destruct Hin as [Hin | Hin]; try discriminate Hin);
         try contradiction; now injection Hin as <- ] ]).
Qed.

(** X10. The temporary directory of a request is removed exactly when
    it was created: if [createTempDir] returned a directory, the last
    thing the handler does, whatever happened in between and whatever it
    answers, is to clean that directory up, once; and if the handler
    never got to create one, or creating it failed, nothing is cleaned
    up. *)
Theorem temp_dir_is_removed (env : Environment) (log : Log) :
  exists body,
    (forall d, ~ In (StepCleanupTempDir d) body) /\
    ((exists d,
        d <> "" /\
        In (StepCreateTempDir (inr d)) body /\
        rs_steps (snd (POST env log)) = body ++ [StepCleanupTempDir d])
     \/
     ((forall d, In (StepCreateTempDir (inr d)) body -> d = "") /\
      rs_steps (snd (POST env log)) = body)).
Proof.
  destruct (try_block_steps env log) as [Hclean Hdir].
  unfold POST.
  destruct (try_block env {| rs_log := log; rs_steps := []; rs_tempDir := None |})
    as [outcome st].
  cbn [snd] in *.
  exists (rs_steps st). split; [exact Hclean |].
  destruct (rs_tempDir st) as [[| c rest] |] eqn:Htemp; cbn [tempDir_to_clean snd rs_steps].
  - right. split; [| reflexivity].
    intros d Hin. apply Hdir in Hin. congruence.
  - left. exists (String c rest).
    split; [discriminate |]. split; [| reflexivity].
    now apply Hdir.
  - right. split; [| reflexivity].
    intros d Hin. apply Hdir in Hin. discriminate.
Qed.

(** *** The handler and the speech service *)

Lemma rate_limited_call (api : Log -> Request -> JsError + Transcription)
    (audioPath : string) (options : FileOptions) (log : Log) :
  always_rate_limits api ->
  exists error events,
    rate_limit_signal error /\
    transcribeAudioFile api audioPath options log = (inl error, log ++ events) /\
    List.length (requests events) = 3%nat.
Proof.
  intros Hlimited.
  destruct (Hlimited log (request_of audioPath options)) as (e1 & Hfail1 & H1).
  destruct (Hlimited
              (after_failure log (request_of audioPath options) e1 1000)
              (request_of audioPath options)) as (e2 & Hfail2 & H2).
  destruct (Hlimited
              (after_failure
                 (after_failure log (request_of audioPath options) e1 1000)
                 (request_of audioPath options) e2 2000)
              (request_of audioPath options)) as (e3 & Hfail3 & H3).
  exists e3,
    [EvCreate (request_of audioPath options) (inl e1); EvSleep 1000;
     EvCreate (request_of audioPath options) (inl e2); EvSleep 2000;
     EvCreate (request_of audioPath options) (inl e3)].
  split; [exact H3 |]. split; [| reflexivity].
  rewrite (two_failures api audioPath options log e1 e2)
    by (try assumption; now left).
  rewrite attempting_step, Hfail3 by (cbn; lia).
  rewrite andb_false_r. unfold after_failure. now rewrite <- !app_assoc.
Qed.

Lemma rate_limited_transcribeAudio
    (api : Log -> Request -> JsError + Transcription) (audioPath : string)
    (chunks : option (list AudioChunk)) (options : AudioOptions) (log : Log) :
  always_rate_limits api ->
  exists error events,
    rate_limit_signal error /\
    transcribeAudio api audioPath chunks options log
      = (inl error, log ++ events) /\
    List.length (requests events) = 3%nat.
Proof.
  intros Hlimited.
  destruct chunks as [[| chunk chunks] |].
  - destruct (rate_limited_call api audioPath (as_file_options options) log
                Hlimited) as (error & events & Hsignal & Hcall & Hcount).
    exists error, events. repeat split; try assumption.
    unfold transcribeAudio, bind. cbn [List.length Z.of_nat Z.eqb].
    now rewrite Hcall.
  - destruct (rate_limited_call api (path chunk)
                (chunk_call_options (as_chunk_options options)
                   (default "" (co_initialPrompt (as_chunk_options options))))
                log Hlimited) as (error & events & Hsignal & Hcall & Hcount).
    exists error, events. repeat split; try assumption.
    change (transcribeAudio api audioPath (Some (chunk :: chunks)) options log)
      with (transcribeChunks api (chunk :: chunks) (as_chunk_options options)
              log).
    rewrite transcribeChunks_run. cbn [chunk_loop]. unfold bind at 1.
    now rewrite Hcall.
  - destruct (rate_limited_call api audioPath (as_file_options options) log
                Hlimited) as (error & events & Hsignal & Hcall & Hcount).
    exists error, events. repeat split; try assumption.
    unfold transcribeAudio, bind. cbn [List.length Z.of_nat Z.eqb].
    now rewrite Hcall.
Qed.

Lemma error_response_rate_limit (error : JsError) :
  rate_limit_signal error ->
  error_response error
  = {| resp_body :=
         ResponseError "Rate limit exceeded"
           (Some "OpenAI API rate limit reached. Please try again later.");
       resp_status := 429 |}.
Proof.
  unfold rate_limit_signal, error_response, status_is. now intros ->.
Qed.

(** X11. While the speech service is rate limiting, a request that gets
    as far as transcription is answered with status 429 and the
    rate-limit message, after exactly three requests to the service;
    and no request at all is answered with status 200. *)
Theorem rate_limit_reaches_client (env : Environment) (log : Log) :
  always_rate_limits (env_create env) ->
  resp_status (fst (POST env log)) <> 200 /\
  forall audioPath,
    In (StepTranscribeAudio audioPath) (rs_steps (snd (POST env log))) ->
    fst (POST env log)
    = {| resp_body :=
           ResponseError "Rate limit exceeded"
             (Some "OpenAI API rate limit reached. Please try again later.");
         resp_status := 429 |} /\
    exists events,
      rs_log (snd (POST env log)) = log ++ events /\
      List.length (requests events) = 3%nat.
Proof.
  intros Hlimited.
  route_cases;
    repeat match goal with
           | H : transcribeAudio ?api ?p ?c ?o ?l = _ |- _ =>
               destruct (rate_limited_transcribeAudio api p c o l Hlimited)
                 as (error & events & Hsignal & Hrun & Hcount);
               rewrite Hrun in H; clear Hrun;
               first [discriminate H | injection H as <- <-]
           end;
    try discriminate;
    (split;
     [ cbn;
       try match goal with
           | |- resp_status (error_response ?e) <> 200 =>
               destruct (error_response_status e) as [[Hs | Hs] _];
               rewrite Hs
           end; discriminate
     | intros audioPath Hin; cbn in Hin;
       repeat (destruct Hin as [Hin | Hin]; try discriminate Hin);
       try contradiction;
       (cbn [fst snd rs_log];
        rewrite error_response_rate_limit by assumption;
        split; [reflexivity | eauto]) ]).
Qed.

Lemma unauthorized_transcribeAudio
    (api : Log -> Request -> JsError + Transcription) (audioPath : string)
    (chunks : option (list AudioChunk)) (options : AudioOptions) (log : Log) :
  always_unauthorized api ->
  exists error request,
    status_of error = Some 401 /\
    transcribeAudio api audioPath chunks options log
      = (inl error, log ++ [EvCreate request (inl error)]).
Proof.
  intros Hrejected.
  assert (Hcall : forall path options,
    exists error,
      status_of error = Some 401 /\
      transcribeAudioFile api path options log
      = (inl error, log ++ [EvCreate (request_of path options) (inl error)])).
  { intros p o.
    destruct (Hrejected log (request_of p o)) as (error & Hfail & H401 & Hno).
    exists error. split; [exact H401 |].
    rewrite transcribeAudioFile_attempting, attempting_step, Hfail
      by (cbn; lia).
    destruct (is_rate_limit error || isRetriable error) eqn:Hsignal;
      [| reflexivity].
    apply retries_signal in Hsignal. contradiction. }
  destruct chunks as [[| chunk chunks] |].
  - destruct (Hcall audioPath (as_file_options options))
      as (error & H401 & Hrun).
    exists error, (request_of audioPath (as_file_options options)).
    split; [exact H401 |].
    unfold transcribeAudio, bind. cbn [List.length Z.of_nat Z.eqb].
    now rewrite Hrun.
  - destruct (Hcall (path chunk)
                (chunk_call_options (as_chunk_options options)
                   (default "" (co_initialPrompt (as_chunk_options options)))))
      as (error & H401 & Hrun).
    eexists error, _. split; [exact H401 |].
    change (transcribeAudio api audioPath (Some (chunk :: chunks)) options log)
      with (transcribeChunks api (chunk :: chunks) (as_chunk_options options)
              log).
    rewrite transcribeChunks_run. cbn [chunk_loop]. unfold bind at 1.
    rewrite Hrun. reflexivity.
  - destruct (Hcall audioPath (as_file_options options))
      as (error & H401 & Hrun).
    exists error, (request_of audioPath (as_file_options options)).
    split; [exact H401 |].
    unfold transcribeAudio, bind. cbn [List.length Z.of_nat Z.eqb].
    now rewrite Hrun.
Qed.

Lemma error_response_unauthorized (error : JsError) :
  status_of error = Some 401 ->
  error_response error
  = {| resp_body :=
         ResponseError "OpenAI API authentication failed"
           (Some "Invalid API key. Please check your OPENAI_API_KEY environment variable.");
       resp_status := 500 |}.
Proof.
  unfold error_response, status_is. now intros ->.
Qed.

(** X12. When the speech service rejects the API key (status 401, not
    retriable), a request that gets as far as transcription is answered
    with status 500 and the authentication message, after a single
    request to the service: nothing is retried and nothing is slept. *)
Theorem auth_failure_reaches_client (env : Environment) (log : Log) :
  always_unauthorized (env_create env) ->
  forall audioPath,
    In (StepTranscribeAudio audioPath) (rs_steps (snd (POST env log))) ->
    fst (POST env log)
    = {| resp_body :=
           ResponseError "OpenAI API authentication failed"
             (Some "Invalid API key. Please check your OPENAI_API_KEY environment variable.");
         resp_status := 500 |} /\
    exists error request,
      status_of error = Some 401 /\
      rs_log (snd (POST env log)) = log ++ [EvCreate request (inl error)].
Proof.
  intros Hrejected.
  route_cases;
    repeat match goal with
           | H : transcribeAudio ?api ?p ?c ?o ?l = _ |- _ =>
               destruct (unauthorized_transcribeAudio api p c o l Hrejected)
                 as (error & request & H401 & Hrun);
               rewrite Hrun in H; clear Hrun;
               first [discriminate H | injection H as <- <-]
           end;
    try discriminate;
    (intros audioPath Hin; cbn in Hin;
     repeat (destruct Hin as [Hin | Hin]; try discriminate Hin);
     try contradiction;
     (cbn [fst snd rs_log];
      rewrite error_response_unauthorized by assumption;
      split; [reflexivity | eauto])).
Qed.

(** *** What the handler sends and what it answers *)

(** X13. When the request schema lets through only prompts of at most
    1500 characters, every request the handler sends to the speech
    service has a prompt of at most 1500 characters, chunked or not. *)
Theorem route_prompts_bounded (env : Environment) (log : Log) :
  (forall raw data,
     env_safeParse env raw = inr data ->
     prompt_schema (rd_prompt data) = true) ->
  exists events,
    rs_log (snd (POST env log)) = log ++ events /\
    forall q p, In q (requests events) -> req_prompt q = Some p ->
      (String.length p <= 1500)%nat.
Proof.
  intros Hschema.
  route_cases;
    try match goal with
        | H : transcribeAudio ?api ?p ?c ?o ?l = _,
          Hparse : env_safeParse env _ = inr _ |- _ =>
            destruct (validated_prompt_bounded api p c o l
                        (Hschema _ _ Hparse))
              as (events & result & Hrun & Hbound);
            rewrite Hrun in H; injection H as -> <-;
            exists events; split; [reflexivity | exact Hbound]
        end;
    (exists []; split; [now rewrite app_nil_r | intros q p []]).
Qed.

(** X14. The files the handler uploads to the speech service: audio of
    at most [MAX_UPLOAD_BYTES] (25 MiB) is sent whole; larger audio is
    sent as the chunks [chunkAudio] returned and not whole, except when
    [chunkAudio] returned no chunk, in which case the oversized file is
    sent whole. *)
Theorem files_sent (env : Environment) (log : Log) :
  MAX_UPLOAD_BYTES = 26214400 /\
  exists events,
    rs_log (snd (POST env log)) = log ++ events /\
    forall q, In q (requests events) ->
      exists dir videoPath extraction,
        env_createTempDir env = inr dir /\
        env_extractAudio env videoPath
          (env_path_join env dir "extracted_audio.mp3") = inr extraction /\
        ((req_file q = env_path_join env dir "extracted_audio.mp3" /\
          (aer_size extraction <= MAX_UPLOAD_BYTES \/
           exists seconds chunking,
             env_chunkAudio env (env_path_join env dir "extracted_audio.mp3")
               (env_path_join env dir "chunks") seconds = inr chunking /\
             cr_chunks chunking = []))
         \/
         (MAX_UPLOAD_BYTES < aer_size extraction /\
          exists seconds chunking chunk,
            env_chunkAudio env (env_path_join env dir "extracted_audio.mp3")
              (env_path_join env dir "chunks") seconds = inr chunking /\
            In chunk (cr_chunks chunking) /\
            req_file q = path chunk)).
Proof.
  split; [reflexivity |].
  route_cases;
    try match goal with
        | H : transcribeAudio ?api ?p ?c ?o ?l = _ |- _ =>
            destruct (transcribeAudio_files api p c o l)
              as (events & result & Hrun & Hfiles);
            rewrite Hrun in H; injection H as -> <-;
            exists events; split; [reflexivity |];
            intros q Hin; specialize (Hfiles q Hin);
            cbn [pv_chunks pv_audioPath] in Hfiles;
            do 3 eexists;
            (split; [reflexivity |]); (split; [eassumption |])
        end;
    try (exists []; split; [now rewrite app_nil_r | intros q []]).
  all: try (left; split; [exact Hfiles |]; left;
            match goal with H : (_ <=? _) = true |- _ =>
              now apply Z.leb_le in H end).
  all: match goal with
       | H : (aer_size _ <=? MAX_UPLOAD_BYTES) = false |- _ =>
           apply Z.leb_gt in H
       end.
  all: match goal with
       | Hc : env_chunkAudio _ _ _ _ = inr ?chunking |- _ =>
           destruct (cr_chunks chunking) as [| chunk rest] eqn:Hchunks
       end.
  all: try (left; split; [exact Hfiles |]; right; eauto).
  all: right; split; [assumption |];
       destruct Hfiles as (sent & Hsent & Hfile);
       do 2 eexists; exists sent;
       (split; [eassumption |]);
       (split; [rewrite Hchunks; exact Hsent | exact Hfile]).
Qed.

(** X15. A success body goes with status 200 and with no other.  Its
    transcript is the successful responses of the service, in order,
    joined by blank lines; [chunksProcessed] is their number and is at
    least 1; [wordCount] and [charCount] are the sums of the counts of
    these responses; and [processingTime] is the difference of the two
    clock readings. *)
Theorem success_response (env : Environment) (log : Log) :
  (resp_status (fst (POST env log)) = 200 <->
   exists t metadata,
     resp_body (fst (POST env log)) = ResponseSuccess t metadata) /\
  forall t metadata,
    resp_body (fst (POST env log)) = ResponseSuccess t metadata ->
    exists events,
      rs_log (snd (POST env log)) = log ++ events /\
      t = join blank_line (outputs events) /\
      md_chunksProcessed metadata = Z.of_nat (List.length (outputs events)) /\
      1 <= md_chunksProcessed metadata /\
      md_wordCount metadata = total (map countWords (outputs events)) /\
      md_charCount metadata = total (map countCharacters (outputs events)) /\
      md_processingTime metadata = env_endTime env - env_startTime env.
Proof.
  route_cases;
    (split;
     [ cbn; split;
       [ intros Hstatus; try discriminate Hstatus; eauto;
         match goal with
         | H : resp_status (error_response ?e) = 200 |- _ =>
             destruct (error_response_status e) as [[Hs | Hs] _];
             rewrite Hs in H; discriminate H
         end
       | intros (t & metadata & Hbody); try discriminate Hbody;
         try reflexivity;
         match goal with
         | H : resp_body (error_response ?e) = _ |- _ =>
             destruct (error_response_status e) as [_ (m & d & Hb)];
             rewrite Hb in H; discriminate H
         end ]
     | intros t metadata Hbody; cbn in Hbody; try discriminate Hbody;
       try match goal with
           | H : resp_body (error_response ?e) = _ |- _ =>
               destruct (error_response_status e) as [_ (m & d & Hb)];
               rewrite Hb in H; discriminate H
           end;
       injection Hbody as <- <-;
       match goal with
       | H : transcribeAudio ?api ?p ?c ?o ?l = (inr ?r, ?l') |- _ =>
           destruct (transcribeAudio_outputs api p c o l l' r H)
             as (events & -> & Ht & Hn & Hone)
       end;
       exists events; cbn;
       rewrite Ht at 2 3; rewrite (proj1 (join_statistics _)),
         (proj2 (join_statistics _));
       repeat split; assumption || reflexivity ]).
Qed.

End Route.

(** ** Runs of the sample services *)

(** The example scenario of the specification: three segments, no
    initial hint.  The second segment is served on its third attempt, so
    its request is logged three times. *)
Example sample_run :
  fst (transcribeChunks sample_service sample_chunks no_chunk_options [])
  = inr {| transcript :=
             ("Hello world." ++ LF ++ LF ++ "This is segment two."
              ++ LF ++ LF ++ "Final segment here.")%string;
           chunksProcessed := 3 |} /\
  map (fun q => (req_file q, req_prompt q))
    (requests
       (snd (transcribeChunks sample_service sample_chunks no_chunk_options [])))
  = [ ("chunk_000.mp3", None);
      ("chunk_001.mp3", Some "Hello world.");
      ("chunk_001.mp3", Some "Hello world.");
      ("chunk_001.mp3", Some "Hello world.");
      ("chunk_002.mp3", Some "This is segment two.") ] /\
  sleeps
    (snd (transcribeChunks sample_service sample_chunks no_chunk_options []))
  = [1000; 2000].
Proof. repeat split. Qed.

(** An empty chunk list sends the whole audio file in one request. *)
Example empty_list_run :
  transcribeAudio immediate "extracted_audio.mp3" (Some []) no_audio_options []
  = (inr {| transcript := "Hello world."; chunksProcessed := 1 |},
     [EvCreate sample_request (inr (TranscriptionString "Hello world."))]).
Proof. reflexivity. Qed.

Lemma retry_only_retriable_signals_witness :
  attempting always_rate_limited sample_request 0 None []
  = attempting always_rate_limited sample_request 1 (Some error_429)
      [EvCreate sample_request (inl error_429); EvSleep 1000].
Proof.
  apply (retry_only_retriable_signals always_rate_limited sample_request 0
           None [] error_429).
  - cbn. lia.
  - reflexivity.
  - left. reflexivity.
  - cbn. lia.
Defined.

Lemma backoff_delay_witness :
  getRetryDelay 2 = Z.min (1000 * 2 ^ 2) 10000.
Proof.
  apply (backoff_delay always_rate_limited 2). lia.
Defined.

Lemma transcript_is_joined_outputs_witness :
  exists log',
    transcribeChunks sample_service sample_chunks no_chunk_options []
    = (inr {| transcript :=
                join blank_line
                  ["Hello world."; "This is segment two.";
                   "Final segment here."];
              chunksProcessed := 3 |}, log').
Proof.
  eexists.
  eapply (transcript_is_joined_outputs sample_service sample_chunks
            no_chunk_options []).
  repeat (eapply cs_call; [reflexivity | reflexivity |]). apply cs_none.
Defined.


Lemma failed_chunk_aborts_witness :
  exists log2,
    transcribeChunks sample_service (sample_chunks ++ [rejected_chunk])
      no_chunk_options []
    = (inl error_401, log2).
Proof.
  eexists.
  eapply (failed_chunk_aborts sample_service no_chunk_options sample_chunks
            rejected_chunk [] []).
  - repeat (eapply cs_call; [reflexivity | reflexivity |]). apply cs_none.
  - reflexivity.
Defined.

Lemma rate_limited_on_every_attempt_witness :
  transcribeAudioFile always_rate_limited "extracted_audio.mp3"
    (mkFileOptions None None None None) []
  = (inl error_429,
     [EvCreate sample_request (inl error_429); EvSleep 1000;
      EvCreate sample_request (inl error_429); EvSleep 2000;
      EvCreate sample_request (inl error_429)]).
Proof.
  exact (proj1 (proj2
    (rate_limited_on_every_attempt always_rate_limited "extracted_audio.mp3"
       (mkFileOptions None None None None) [] error_429 error_429 error_429
       eq_refl eq_refl eq_refl eq_refl eq_refl eq_refl))).
Defined.

Lemma retried_call_same_output_witness :
  fst (transcribeAudioFile rate_limited_twice "extracted_audio.mp3"
         (mkFileOptions None None None None) [])
  = fst (transcribeAudioFile immediate "extracted_audio.mp3"
           (mkFileOptions None None None None) []).
Proof.
  exact (proj1
    (retried_call_same_output rate_limited_twice immediate
       "extracted_audio.mp3" (mkFileOptions None None None None) [] []
       error_429 error_429 (TranscriptionString "Hello world.")
       eq_refl eq_refl eq_refl eq_refl eq_refl eq_refl)).
Defined.

Lemma prompt_bounded_after_first_chunk_witness :
  (String.length "Hello world." <= 1500)%nat.
Proof.
  destruct (prompt_bounded_after_first_chunk immediate sample_chunks
              no_chunk_options [])
    as (events & result & Hrun & Hbound).
  injection Hrun as _ <-.
  apply (Hbound
           [EvCreate sample_request_0 (inr (TranscriptionString "Hello world."))]
           sample_request_1 (inr (TranscriptionString "Hello world."))
           [EvCreate
              (request_of "chunk_002.mp3"
                 (chunk_call_options no_chunk_options "Hello world."))
              (inr (TranscriptionString "Hello world."))]
           "Hello world.").
  - reflexivity.
  - reflexivity.
  - left. cbn. lia.
Defined.

(** C9, as stated, fails: [transcribeChunks] accepts an initial hint of
    1501 characters and sends it unchanged as the prompt of the request
    for the first chunk. *)
Lemma long_initial_hint_is_sent :
  exists q o p,
    transcribeChunks immediate [mkAudioChunk "chunk_000.mp3" 0 480]
      long_hint_options []
    = (inr {| transcript := "Hello world."; chunksProcessed := 1 |},
       [EvCreate q o]) /\
    req_file q = "chunk_000.mp3" /\
    req_prompt q = Some p /\
    p = long_hint /\
    String.length p = 1501%nat /\
    (1500 < String.length p)%nat.
Proof.
  exists (request_of "chunk_000.mp3"
            (chunk_call_options long_hint_options long_hint)),
    (inr (TranscriptionString "Hello world.")), long_hint.
  repeat split; vm_compute; reflexivity.
Qed.

Lemma getAppConfig_reads_once_witness :
  getAppConfig_calls string
    ([inl error_401] ++ inr "first" :: [inl error_429; inr "second"]) None
  = ([inl (new_Error
             "Missing or invalid environment variables. Please check your .env file.");
      inr "first"; inr "first"; inr "first"],
     Some "first").
Proof.
  apply (getAppConfig_reads_once string [inl error_401] "first"
           [inl error_429; inr "second"]).
  intros parsed [<- | []]. now exists error_401.
Defined.

Lemma bad_request_has_no_effect_witness :
  resp_status (fst (POST no_ffmpeg_environment [])) = 500 /\
  rs_steps (snd (POST no_ffmpeg_environment [])) = [StepCheckFfmpeg] /\
  rs_log (snd (POST no_ffmpeg_environment [])) = [].
Proof.
  apply (proj2 (bad_request_has_no_effect no_ffmpeg_environment [])).
  reflexivity.
Defined.

Lemma transcript_is_the_logged_outputs_witness :
  exists events,
    join blank_line
      ["Hello world."; "This is segment two."; "Final segment here."]
    = join blank_line (outputs events).
Proof.
  destruct (transcript_is_the_logged_outputs sample_service
              "extracted_audio.mp3" (Some sample_chunks) no_audio_options []
              _ _ eq_refl)
    as (events & _ & Htranscript & _).
  exists events. exact Htranscript.
Defined.

Lemma rate_limit_reaches_client_witness :
  fst (POST (sample_environment always_rate_limited) [])
  = {| resp_body :=
         ResponseError "Rate limit exceeded"
           (Some "OpenAI API rate limit reached. Please try again later.");
       resp_status := 429 |}.
Proof.
  apply (proj2 (rate_limit_reaches_client
                  (sample_environment always_rate_limited) []
                  (fun log q => ex_intro _ error_429 (conj eq_refl eq_refl)))
           "/tmp/transcriptions/t1/extracted_audio.mp3").
  cbn. repeat (first [left; reflexivity | right]).
Defined.

Lemma auth_failure_reaches_client_witness :
  fst (POST (sample_environment always_rejected) [])
  = {| resp_body :=
         ResponseError "OpenAI API authentication failed"
           (Some "Invalid API key. Please check your OPENAI_API_KEY environment variable.");
       resp_status := 500 |}.
Proof.
  apply (auth_failure_reaches_client (sample_environment always_rejected) [])
    with (audioPath := "/tmp/transcriptions/t1/extracted_audio.mp3").
  - intros log q. exists error_401. repeat split.
    intros [Hrate | [(s & Hs & Hbig) | [Hcode | Hcode]]];
      try discriminate.
    cbn in Hs. injection Hs as <-. lia.
  - cbn. repeat (first [left; reflexivity | right]).
Defined.

Lemma route_prompts_bounded_witness :
  exists events,
    rs_log (snd (POST (sample_environment immediate) [])) = [] ++ events /\
    forall q p, In q (requests events) -> req_prompt q = Some p ->
      (String.length p <= 1500)%nat.
Proof.
  apply (route_prompts_bounded (sample_environment immediate) []).
  intros raw data. cbn. unfold sample_safeParse.
  destruct (raw_prompt raw) as [[p | file] |]; try discriminate.
  - destruct (String.length p <=? 1500)%nat eqn:Hp; [| discriminate].
    intros Hdata. injection Hdata as <-. exact Hp.
  - intros Hdata. injection Hdata as <-. reflexivity.
Defined.

Lemma success_response_witness :
  exists events,
    "Hello world." = join blank_line (outputs events) /\
    md_chunksProcessed
      (mkTranscriptionMetadata "talk.mp4" 61 2 11 1 4200 whisper_1 None)
    = Z.of_nat (List.length (outputs events)).
Proof.
  destruct (proj2 (success_response (sample_environment immediate) [])
              "Hello world."
              (mkTranscriptionMetadata "talk.mp4" 61 2 11 1 4200 whisper_1
                 None)
              eq_refl)
    as (events & _ & Htranscript & Hcount & _).
  exists events. split; assumption.
Defined.

Lemma words_and_characters_witness :
  countCharacters ("  " ++ LF) = 0.
Proof.
  apply (proj1 (proj1 (proj2 (proj2 (words_and_characters ("  " ++ LF)))))).
  reflexivity.
Defined.

Lemma progress_is_reported_in_order_witness :
  exists events,
    snd (transcribeChunks sample_service sample_chunks progress_options [])
    = [] ++ events /\
    progress_reports events
    = reports_from 1 3 (List.length (outputs events)).
Proof.
  destruct (progress_is_reported_in_order sample_service sample_chunks
              progress_options [])
    as (events & result & Hrun & _ & Hreports & _).
  exists events. split; [now rewrite Hrun | exact Hreports].
Defined.

Lemma chunked_run_ignores_prompt_witness :
  req_prompt sample_request_0 = None.
Proof.
  destruct (proj2 (chunked_run_ignores_prompt immediate "extracted_audio.mp3"
                     (mkAudioChunk "chunk_000.mp3" 0 480) []
                     (mkAudioOptions None None (Some "Rocq, Gallina") None
                        None) []))
    as (events & result & Hrun & Hrequests).
  injection Hrun as _ <-.
  apply (Hrequests [] sample_request_0
           (inr (TranscriptionString "Hello world.")) []);
    reflexivity.
Defined.

Lemma temp_dir_is_removed_witness :
  exists body,
    rs_steps (snd (POST (sample_environment always_rate_limited) []))
    = body ++ [StepCleanupTempDir "/tmp/transcriptions/t1"].
Proof.
  destruct (temp_dir_is_removed (sample_environment always_rate_limited) [])
    as (body & _ & [(d & _ & _ & Hsteps) | (Hnone & Hsteps)]).
  - exists body. rewrite Hsteps. f_equal.
    change (rs_steps (snd (POST (sample_environment always_rate_limited) [])))
      with ([StepCheckFfmpeg; StepFormData;
             StepCreateTempDir (inr "/tmp/transcriptions/t1");
             StepSaveUploadedFile sample_video "/tmp/transcriptions/t1";
             StepExtractAudio "/tmp/transcriptions/t1/video_1.mp4"
               "/tmp/transcriptions/t1/extracted_audio.mp3";
             StepTranscribeAudio "/tmp/transcriptions/t1/extracted_audio.mp3"]
            ++ [StepCleanupTempDir "/tmp/transcriptions/t1"]) in Hsteps.
    apply app_inj_tail in Hsteps. destruct Hsteps as [_ Hd].
    now rewrite Hd.
  - exfalso.
    assert (Hd : "/tmp/transcriptions/t1" = "").
    { apply Hnone. rewrite <- Hsteps. cbn.
      repeat (first [left; reflexivity | right]). }
    discriminate Hd.
Defined.

Lemma files_sent_witness :
  exists events,
    rs_log (snd (POST (sample_environment immediate) [])) = [] ++ events /\
    forall q, In q (requests events) ->
      req_file q = "/tmp/transcriptions/t1/extracted_audio.mp3"
      \/ MAX_UPLOAD_BYTES < 488000.
Proof.
  destruct (proj2 (files_sent (sample_environment immediate) []))
    as (events & Hlog & Hfiles).
  exists events. split; [exact Hlog |].
  intros q Hin.
  destruct (Hfiles q Hin)
    as (dir & videoPath & extraction & Hdir & Hextract
        & [[Hfile _] | [Hbig _]]).
  - left. cbn in Hdir. injection Hdir as <-. exact Hfile.
  - right. cbn in Hextract. injection Hextract as <-. exact Hbig.
Defined.

(** C1, as stated, fails: the only chunk is transcribed, and the call
    for it returns its output, but the observer throws on the
    notification that follows, and [transcribeChunks] throws that error
    instead of returning the transcript. *)
Lemma observer_error_loses_transcript :
  transcribeAudioFile immediate "chunk_000.mp3"
    (chunk_call_options throwing_observer_options "") []
  = (inr "Hello world.",
     [EvCreate sample_request_0 (inr (TranscriptionString "Hello world."))])
  /\
  transcribeChunks immediate [mkAudioChunk "chunk_000.mp3" 0 480]
    throwing_observer_options []
  = (inl observer_error,
     [EvCreate sample_request_0 (inr (TranscriptionString "Hello world."));
      EvProgress 1 1]).
Proof. split; reflexivity. Qed.
